(** * bredtape/grpc: supervised gRPC client connections

    A shallow embedding of package [grpc_conn]:

    - [src/conn.go]            (module [conn_go]),
    - [src/unnamed/part_001]   (module [part_001], a later revision of conn.go),
    - [src/unnamed/part_000]   (module [part_000], the latest revision of conn.go),
    - [src/unnamed/part_002]   (the metric vectors),
    - [src/unnamed/part_003]   (the Pool).

    Goroutines are modelled by an explicit world state and a step function
    that consumes the events at which the Go code blocks or calls out of the
    package (dial results, select cases, context cancellation). *)

From Stdlib Require Import ZArith QArith Lia.
From stdpp Require Import base option strings list gmap.

Local Open Scope Z_scope.
Local Open Scope string_scope.

(** ** Go values used by the package *)

(** A pointer that may be nil. *)
Definition ptr (A : Type) : Type := option A.
Definition nil {A : Type} : ptr A := None.

(** [time.Duration]: an int64 count of nanoseconds. *)
Definition Duration : Type := Z.
Definition Millisecond : Duration := 1000000.
Definition Second : Duration := 1000 * Millisecond.

(** Go's [int] (64 bit), with its wrap-around. *)
Definition wrap_int (z : Z) : Z := (z + 2 ^ 63) mod 2 ^ 64 - 2 ^ 63.

(** The two values [ctx.Err()] can return once [ctx.Done()] is closed. *)
Inductive ctx_error : Type := Canceled | DeadlineExceeded.

Inductive error : Type :=
  | errors_New (msg : string)
  | errors_Wrap (cause : error) (msg : string)
  | context_error (e : ctx_error)
  | library_error (descr : string).

(** [context.Context] as a select sees it: [None] while [Done()] is open,
    [Some e] once it is closed, with [Err() = e]. *)
Definition Context : Type := option ctx_error.
Definition ctx_Err (ctx : Context) : option error := context_error <$> ctx.
Definition ctx_Done (ctx : Context) : bool := bool_decide (is_Some ctx).

(** [context.WithTimeout(parent, _)] followed by [cancel()]: the derived
    context is done from then on, whatever the parent does. *)
Definition WithTimeout (parent : Context) : Context := parent.
Definition cancel (ctx : Context) : Context :=
  match ctx with Some e => Some e | None => Some Canceled end.

(** [*grpc.ClientConn] as returned by a successful dial: an opaque handle. *)
Definition ClientConn : Type := nat.

(** [grpc.DialOption]: the options the package itself builds, and any other. *)
Inductive DialOption : Type :=
  | grpc_WithBlock
  | grpc_WithUnaryInterceptor_prometheus
  | grpc_WithStreamInterceptor_prometheus
  | grpc_WithTransportCredentials_insecure
  | grpc_other_DialOption (id : nat).

(** [retry.Retryer]: the interface with the one method [Next]. *)
Record Retryer : Type := mkRetryer { Next : Z -> Duration }.

(** Functions imported from other packages, whose code is not part of this
    repository. *)
Class Externals : Type := {
  (** [net.SplitHostPort]: host, port and error. *)
  net_SplitHostPort : string -> string * string * option error;
  (** [strings.TrimSpace]. *)
  strings_TrimSpace : string -> string;
  (** [retry.Must(retry.NewExp(factor, min, max))]. *)
  retry_NewExp : Q -> Duration -> Duration -> Retryer
}.

(** ** Runtime objects *)

(** [sync.Once]: [done] is set when the one call of [f] has returned;
    [running] while that call is in progress ([Do] holds the mutex, and any
    other caller of [Do] waits for it). *)
Record Once : Type := mkOnce { done_ : bool; running : bool }.

(** An unbuffered [chan *grpc.ClientConn]: whether it is closed, and the
    value of the sender blocked on it, if any. *)
Record Chan : Type := mkChan { closed : bool; offered : option ClientConn }.

Definition make_chan : Chan := mkChan false None.
Definition close_chan (ch : Chan) : Chan := mkChan true None.

(** A receive [v, ok := <-ch]: [None] when it would block. *)
Definition recv (ch : Chan) : option (ptr ClientConn * bool) :=
  if closed ch then Some (nil, false)
  else match offered ch with
       | Some v => Some (Some v, true)
       | None => None
       end.

(** [type Conn struct], over the revision's [Options] type. *)
Record Conn (Options : Type) : Type := mkConn {
  name : string;
  address : string;
  options : Options;
  once : Once;
  requests : Chan
}.
Arguments mkConn {Options}.
Arguments name {Options}.
Arguments address {Options}.
Arguments options {Options}.
Arguments once {Options}.
Arguments requests {Options}.

Definition ErrShutdown : error := errors_New "shutdown in progress".

Section Accessors.
Context {Options : Type}.

(** The composite literal of [New]: the Once at its zero value, a fresh
    channel. *)
Definition new_Conn (n a : string) (o : Options) : Conn Options :=
  mkConn n a o (mkOnce false false) make_chan.

Definition GetName (c : Conn Options) : string := name c.
Definition GetAddress (c : Conn Options) : string := address c.
Definition GetOptions (c : Conn Options) : Options := options c.

Definition set_once (o : Once) (c : Conn Options) : Conn Options :=
  mkConn (name c) (address c) (options c) o (requests c).
Definition set_requests (ch : Chan) (c : Conn Options) : Conn Options :=
  mkConn (name c) (address c) (options c) (once c) ch.

(** The case a [select] takes. *)
Inductive select_case : Type := case_ctx_Done | case_recv.

(** [GetConnection] (the same text in the three revisions): the result
    when the select takes case [pick]; [None] when that case is not
    ready. *)
Definition GetConnection (c : Conn Options) (ctx : Context) (pick : select_case)
  : option (ptr ClientConn * option error) :=
  match pick with
  | case_ctx_Done =>
      if ctx_Done ctx then Some (nil, ctx_Err ctx) else None
  | case_recv =>
      match recv (requests c) with
      | Some (conn, ok) =>
          if negb ok then Some (nil, Some ErrShutdown)
          else Some (conn, None)
      | None => None
      end
  end.
End Accessors.

(** ** The Pool (part_003) *)

Section Pool.
Context {Options : Type}.

Record Pool : Type := mkPool { conns : gmap string (ptr (Conn Options)) }.

(** The [range] loop of [NewPool]; [None] is the panic of [x.GetName()]
    on a nil pointer. *)
Fixpoint NewPool_range (p : Pool) (xs : list (ptr (Conn Options))) : option Pool :=
  match xs with
  | [] => Some p
  | x :: xs' =>
      match x with
      | None => None
      | Some c => NewPool_range (mkPool (<[GetName c := x]> (conns p))) xs'
      end
  end.

Definition NewPool (xs : list (ptr (Conn Options))) : option (ptr Pool * option error) :=
  match NewPool_range (mkPool ∅) xs with
  | Some p => Some (Some p, None)
  | None => None
  end.

Definition Get (p : Pool) (n : string) : ptr (Conn Options) * bool :=
  match conns p !! n with
  | Some c => (c, true)
  | None => (nil, false)
  end.
End Pool.
Arguments Pool : clear implicits.

(** ** The metric vectors (part_002, and the var block of conn.go)

    One Conn has one label pair (name, address), so each vector is
    represented by its child for that pair: [None] until
    [WithLabelValues] creates it (at zero). Counters count in steps of one. *)

Record Metrics : Type := mkMetrics {
  metric_grpc_is_connected : option Z;
  metric_grpc_conns : option nat;
  metric_grpc_conns_err : option nat
}.

Definition no_metrics : Metrics := mkMetrics None None None.

Definition WithLabelValues_is_connected (m : Metrics) : Metrics :=
  mkMetrics (Some (default 0 (metric_grpc_is_connected m)))
            (metric_grpc_conns m) (metric_grpc_conns_err m).
Definition WithLabelValues_conns (m : Metrics) : Metrics :=
  mkMetrics (metric_grpc_is_connected m)
            (Some (default 0%nat (metric_grpc_conns m))) (metric_grpc_conns_err m).
Definition WithLabelValues_conns_err (m : Metrics) : Metrics :=
  mkMetrics (metric_grpc_is_connected m)
            (metric_grpc_conns m) (Some (default 0%nat (metric_grpc_conns_err m))).
Definition Inc_conns (m : Metrics) : Metrics :=
  mkMetrics (metric_grpc_is_connected m)
            (Some (S (default 0%nat (metric_grpc_conns m)))) (metric_grpc_conns_err m).
Definition Inc_conns_err (m : Metrics) : Metrics :=
  mkMetrics (metric_grpc_is_connected m)
            (metric_grpc_conns m) (Some (S (default 0%nat (metric_grpc_conns_err m)))).
Definition Set_is_connected (v : Z) (m : Metrics) : Metrics :=
  mkMetrics (Some v) (metric_grpc_conns m) (metric_grpc_conns_err m).

(** ** The world of one Conn *)

(** Where the goroutine running [loop] is: not started, blocked in the dial
    call, blocked in the select after a failed dial, blocked in the select
    that serves the connection, or returned. *)
Inductive PC : Type := NotStarted | Dialing | Backoff | Serving | Exited.

(** A deferred call of [loop]. *)
Inductive deferred : Type :=
  | defer_log
  | defer_close_requests
  | defer_conn_Close (c : ClientConn).

#[global] Instance PC_eq_dec : EqDecision PC.
Proof. solve_decision. Defined.
#[global] Instance deferred_eq_dec : EqDecision deferred.
Proof. unfold ClientConn. solve_decision. Defined.

(** What the loop waits for. [EvCancel] is the environment ending the
    context that was passed to [Start]; the others are the return of the
    dial call and the select cases taken. *)
Inductive event : Type :=
  | EvCancel (e : ctx_error)
  | EvDialErr (err : error)
  | EvDialOk (c : ClientConn)
  | EvTimer
  | EvDone
  | EvSend.

Section World.
Context {Options : Type}.

Record World : Type := mkWorld {
  self : Conn Options;
  (** the frame of [loop] *)
  pc : PC;
  appCtx : Context;           (* the parameter of loop *)
  dialCtx : Context;          (* conn.go: the local ctx of WithTimeout *)
  attempt : Z;
  conn : ptr ClientConn;
  timer : option Duration;    (* the pending time.After *)
  defers : list deferred;     (* newest first *)
  (** the rest of the process *)
  metrics : Metrics;
  closed_conns : list ClientConn;   (* handles on which Close was called *)
  watchers : list ClientConn;       (* watchConnectionState goroutines *)
  (** bookkeeping *)
  loop_calls : nat;           (* how many times loop was entered *)
  in_Start : nat              (* callers that are inside Start *)
}.

Definition set_self v (w : World) : World :=
  mkWorld v (pc w) (appCtx w) (dialCtx w) (attempt w) (conn w) (timer w) (defers w) (metrics w) (closed_conns w) (watchers w) (loop_calls w) (in_Start w).
Definition set_pc v (w : World) : World :=
  mkWorld (self w) v (appCtx w) (dialCtx w) (attempt w) (conn w) (timer w) (defers w) (metrics w) (closed_conns w) (watchers w) (loop_calls w) (in_Start w).
Definition set_appCtx v (w : World) : World :=
  mkWorld (self w) (pc w) v (dialCtx w) (attempt w) (conn w) (timer w) (defers w) (metrics w) (closed_conns w) (watchers w) (loop_calls w) (in_Start w).
Definition set_dialCtx v (w : World) : World :=
  mkWorld (self w) (pc w) (appCtx w) v (attempt w) (conn w) (timer w) (defers w) (metrics w) (closed_conns w) (watchers w) (loop_calls w) (in_Start w).
Definition set_attempt v (w : World) : World :=
  mkWorld (self w) (pc w) (appCtx w) (dialCtx w) v (conn w) (timer w) (defers w) (metrics w) (closed_conns w) (watchers w) (loop_calls w) (in_Start w).
Definition set_conn v (w : World) : World :=
  mkWorld (self w) (pc w) (appCtx w) (dialCtx w) (attempt w) v (timer w) (defers w) (metrics w) (closed_conns w) (watchers w) (loop_calls w) (in_Start w).
Definition set_timer v (w : World) : World :=
  mkWorld (self w) (pc w) (appCtx w) (dialCtx w) (attempt w) (conn w) v (defers w) (metrics w) (closed_conns w) (watchers w) (loop_calls w) (in_Start w).
Definition set_defers v (w : World) : World :=
  mkWorld (self w) (pc w) (appCtx w) (dialCtx w) (attempt w) (conn w) (timer w) v (metrics w) (closed_conns w) (watchers w) (loop_calls w) (in_Start w).
Definition set_metrics v (w : World) : World :=
  mkWorld (self w) (pc w) (appCtx w) (dialCtx w) (attempt w) (conn w) (timer w) (defers w) v (closed_conns w) (watchers w) (loop_calls w) (in_Start w).
Definition set_closed_conns v (w : World) : World :=
  mkWorld (self w) (pc w) (appCtx w) (dialCtx w) (attempt w) (conn w) (timer w) (defers w) (metrics w) v (watchers w) (loop_calls w) (in_Start w).
Definition set_watchers v (w : World) : World :=
  mkWorld (self w) (pc w) (appCtx w) (dialCtx w) (attempt w) (conn w) (timer w) (defers w) (metrics w) (closed_conns w) v (loop_calls w) (in_Start w).
Definition set_loop_calls v (w : World) : World :=
  mkWorld (self w) (pc w) (appCtx w) (dialCtx w) (attempt w) (conn w) (timer w) (defers w) (metrics w) (closed_conns w) (watchers w) v (in_Start w).
Definition set_in_Start v (w : World) : World :=
  mkWorld (self w) (pc w) (appCtx w) (dialCtx w) (attempt w) (conn w) (timer w) (defers w) (metrics w) (closed_conns w) (watchers w) (loop_calls w) v.

(** The world in which a Conn has just been built. The metric vectors
    are package-level and shared by every Conn with the same name and
    address: [m0] is what an earlier Conn with these labels may have left
    in them ([no_metrics] when the labels are new). *)
Definition init_world (m0 : Metrics) (c : Conn Options) : World :=
  mkWorld c NotStarted None None 0 nil None [] m0 [] [] 0%nat 0%nat.

Definition run_deferred (w : World) (d : deferred) : World :=
  match d with
  | defer_log => w
  | defer_close_requests =>
      set_self (set_requests (close_chan (requests (self w))) (self w)) w
  | defer_conn_Close c => set_closed_conns (c :: closed_conns w) w
  end.

(** [return]: the deferred calls run, newest first. *)
Definition return_ (w : World) : World :=
  set_pc Exited (set_defers [] (fold_left run_deferred (defers w) w)).

(** The loop blocks in [c.requests <- conn]. *)
Definition serve (w : World) : World :=
  set_pc Serving
    (set_self (set_requests (mkChan (closed (requests (self w))) (conn w)) (self w)) w).

Definition cancel_appCtx (e : ctx_error) (w : World) : World :=
  set_appCtx (Some (default e (appCtx w)))
    (set_dialCtx (match pc w with
                  | Dialing => Some (default e (dialCtx w))   (* derived from appCtx *)
                  | _ => dialCtx w
                  end) w).

(** A caller calls Start, or the loop takes a step. *)
Inductive action : Type :=
  | call_Start (ctx : Context)
  | env (ev : event).

Section Run.
Variable Start : Context -> World -> World.
Variable step : World -> event -> option World.

Definition exec (w : World) (a : action) : option World :=
  match a with
  | call_Start ctx => Some (Start ctx w)
  | env ev => step w ev
  end.

Fixpoint run (w : World) (acts : list action) : option World :=
  match acts with
  | [] => Some w
  | a :: rest =>
      match exec w a with
      | Some w' => run w' rest
      | None => None
      end
  end.
End Run.
End World.
Arguments World : clear implicits.

(** [connectivity.State] of google.golang.org/grpc, with the numbering the
    help text of [metric_conn_state] quotes. *)
Inductive connectivity_State : Type :=
  Idle | Connecting | Ready | TransientFailure | Shutdown.

(** [float64(state)]: exact on these small integers. *)
Definition float64_of_State (s : connectivity_State) : Z :=
  match s with
  | Idle => 0 | Connecting => 1 | Ready => 2 | TransientFailure => 3 | Shutdown => 4
  end.

(** ** The three revisions of conn.go *)

Module conn_go.
Record Options : Type := mkOptions {
  ConnectTimeout : Duration;
  RetryConnect : Retryer;
  DialOptions : list DialOption
}.

Definition DefaultOptions `{Externals} : Options :=
  {| ConnectTimeout := 15 * Second;
     RetryConnect := retry_NewExp (2 # 10) (200 * Millisecond) (5 * Second);
     DialOptions := [grpc_WithBlock;
                     grpc_WithUnaryInterceptor_prometheus;
                     grpc_WithStreamInterceptor_prometheus] |}.

Definition New `{Externals} (n a : string) (opts : list Options)
  : ptr (Conn Options) * option error :=
  if (String.length n =? 0)%nat then (nil, Some (errors_New "specify name"))
  else
    match net_SplitHostPort a with
    | (_, _, Some err) => (nil, Some (errors_Wrap err "invalid address"))
    | (_, _, None) =>
        if (1 <? length opts)%nat then (nil, Some (errors_New "specify 0..1 Options"))
        else
          match opts with
          | [] => (Some (new_Conn n a DefaultOptions), None)
          | o :: _ => (Some (new_Conn n a o), None)
          end
    end.

(** [loop], from the top of the [for] body to the blocking
    [grpc.DialContext]. *)
Definition dial (w : World Options) : World Options :=
  set_pc Dialing
    (set_dialCtx (WithTimeout (appCtx w))
      (set_metrics (Inc_conns (metrics w)) w)).

(** [loop], from its entry to the first dial. *)
Definition loop (ctx0 : Context) (w : World Options) : World Options :=
  let w := set_loop_calls (S (loop_calls w)) (set_appCtx ctx0 w) in
  let w := set_defers (defer_close_requests :: defers w) w in
  let w := set_metrics
             (WithLabelValues_conns_err
                (WithLabelValues_conns
                   (WithLabelValues_is_connected (metrics w)))) w in
  let w := set_attempt 0 w in
  dial w.

(** [loop] returns into [once.Do], which returns into [Start]: the Once
    is done and every caller waiting in [Start] goes on. *)
Definition loop_return (w : World Options) : World Options :=
  let w := return_ w in
  set_in_Start 0%nat (set_self (set_once (mkOnce true false) (self w)) w).

Definition step (w : World Options) (ev : event) : option (World Options) :=
  match pc w, ev with
  | _, EvCancel e => Some (cancel_appCtx e w)
  | Dialing, EvDialErr _ =>
      let w := set_dialCtx (cancel (dialCtx w)) w in
      let w := set_metrics (Inc_conns_err (metrics w)) w in
      Some (set_pc Backoff
              (set_timer (Some (Next (RetryConnect (options (self w))) (attempt w))) w))
  | Dialing, EvDialOk c =>
      let w := set_dialCtx (cancel (dialCtx w)) (set_conn (Some c) w) in
      let w := set_attempt 0 w in
      let w := set_metrics (Set_is_connected 1 (metrics w)) w in
      Some (serve w)
  | Backoff, EvDone =>
      if ctx_Done (appCtx w) then Some (loop_return w) else None
  | Backoff, EvTimer =>
      Some (dial (set_attempt (wrap_int (attempt w + 1)) (set_timer None w)))
  | Serving, EvDone =>
      if ctx_Done (dialCtx w) then Some (loop_return w) else None
  | Serving, EvSend => Some (serve w)
  | _, _ => None
  end.

(** [c.once.Do(func() { c.loop(ctx) })]: the loop runs in the caller. *)
Definition Start (ctx : Context) (w : World Options) : World Options :=
  if done_ (once (self w)) then w
  else if running (once (self w)) then set_in_Start (S (in_Start w)) w
  else loop ctx
         (set_in_Start (S (in_Start w))
            (set_self (set_once (mkOnce false true) (self w)) w)).
End conn_go.

Module part_001.
Record Options : Type := mkOptions {
  RetryConnect : Retryer;
  DialOptions : list DialOption
}.

Definition backoff `{Externals} : Retryer :=
  retry_NewExp (2 # 10) (1 * Second) (5 * Second).

Definition DefaultOptions `{Externals} : Options :=
  {| RetryConnect := backoff;
     DialOptions := [grpc_WithBlock;
                     grpc_WithUnaryInterceptor_prometheus;
                     grpc_WithStreamInterceptor_prometheus] |}.

Definition DefaultOptionsInsecure `{Externals} : Options :=
  {| RetryConnect := backoff;
     DialOptions := [grpc_WithBlock;
                     grpc_WithTransportCredentials_insecure;
                     grpc_WithUnaryInterceptor_prometheus;
                     grpc_WithStreamInterceptor_prometheus] |}.

Definition New `{Externals} (n a : string) (opts : list Options)
  : ptr (Conn Options) * option error :=
  if (String.length n =? 0)%nat then (nil, Some (errors_New "specify name"))
  else
    match net_SplitHostPort a with
    | (_, _, Some err) => (nil, Some (errors_Wrap err "invalid address"))
    | (_, _, None) =>
        if (1 <? length opts)%nat then (nil, Some (errors_New "specify 0..1 Options"))
        else
          match opts with
          | [] => (Some (new_Conn n a DefaultOptions), None)
          | o :: _ => (Some (new_Conn n a o), None)
          end
    end.

Definition dial (w : World Options) : World Options :=
  set_pc Dialing (set_metrics (Inc_conns (metrics w)) w).

Definition loop (ctx : Context) (w : World Options) : World Options :=
  let w := set_loop_calls (S (loop_calls w)) (set_appCtx ctx w) in
  let w := set_defers (defer_log :: defers w) w in
  let w := set_defers (defer_close_requests :: defers w) w in
  let w := set_metrics
             (WithLabelValues_conns_err
                (WithLabelValues_conns
                   (WithLabelValues_is_connected (metrics w)))) w in
  let w := set_attempt 0 w in
  dial w.

Definition step (w : World Options) (ev : event) : option (World Options) :=
  match pc w, ev with
  | _, EvCancel e => Some (cancel_appCtx e w)
  | Dialing, EvDialErr _ =>
      let w := set_metrics (Inc_conns_err (metrics w)) w in
      Some (set_pc Backoff
              (set_timer (Some (Next (RetryConnect (options (self w))) (attempt w))) w))
  | Dialing, EvDialOk c =>
      let w := set_conn (Some c) w in
      let w := set_defers (defer_conn_Close c :: defers w) w in
      let w := set_metrics (Set_is_connected 1 (metrics w)) w in
      Some (serve w)
  | Backoff, EvDone =>
      if ctx_Done (appCtx w) then Some (return_ w) else None
  | Backoff, EvTimer =>
      Some (dial (set_attempt (wrap_int (attempt w + 1)) (set_timer None w)))
  | Serving, EvDone =>
      if ctx_Done (appCtx w) then Some (return_ w) else None
  | Serving, EvSend => Some (serve w)
  | _, _ => None
  end.

(** [c.once.Do(func() { go c.loop(ctx) })]: the loop runs in a goroutine
    of its own, the caller goes on. *)
Definition Start (ctx : Context) (w : World Options) : World Options :=
  if done_ (once (self w)) then w
  else
    let w := loop ctx w in
    set_self (set_once (mkOnce true false) (self w)) w.
End part_001.

Module part_000.
Record Options : Type := mkOptions {
  RetryConnect : Retryer;
  DialOptions : list DialOption
}.

Definition backoff `{Externals} : Retryer :=
  retry_NewExp (2 # 10) (1 * Second) (5 * Second).

Definition DefaultOptions `{Externals} : Options :=
  {| RetryConnect := backoff;
     DialOptions := [grpc_WithUnaryInterceptor_prometheus;
                     grpc_WithStreamInterceptor_prometheus] |}.

Definition OptionsInsecure `{Externals} : Options :=
  {| RetryConnect := backoff;
     DialOptions := [grpc_WithTransportCredentials_insecure;
                     grpc_WithUnaryInterceptor_prometheus;
                     grpc_WithStreamInterceptor_prometheus] |}.

Definition New `{Externals} (n a : string) (opts : list Options)
  : ptr (Conn Options) * option error :=
  if (String.length n =? 0)%nat then (nil, Some (errors_New "specify name"))
  else if String.eqb (strings_TrimSpace a) "" then (nil, Some (errors_New "empty address"))
  else if (1 <? length opts)%nat then (nil, Some (errors_New "specify 0..1 Options"))
  else
    match opts with
    | [] => (Some (new_Conn n a DefaultOptions), None)
    | o :: _ => (Some (new_Conn n a o), None)
    end.

Definition dial (w : World Options) : World Options :=
  set_pc Dialing (set_metrics (Inc_conns (metrics w)) w).

Definition loop (ctx : Context) (w : World Options) : World Options :=
  let w := set_loop_calls (S (loop_calls w)) (set_appCtx ctx w) in
  let w := set_defers (defer_log :: defers w) w in
  let w := set_defers (defer_close_requests :: defers w) w in
  let w := set_metrics
             (WithLabelValues_conns_err
                (WithLabelValues_conns (metrics w))) w in
  let w := set_attempt 0 w in
  dial w.

Definition step (w : World Options) (ev : event) : option (World Options) :=
  match pc w, ev with
  | _, EvCancel e => Some (cancel_appCtx e w)
  | Dialing, EvDialErr _ =>
      let w := set_metrics (Inc_conns_err (metrics w)) w in
      Some (set_pc Backoff
              (set_timer (Some (Next (RetryConnect (options (self w))) (attempt w))) w))
  | Dialing, EvDialOk c =>
      let w := set_conn (Some c) w in
      let w := set_defers (defer_conn_Close c :: defers w) w in
      let w := set_watchers (c :: watchers w) w in
      Some (serve w)
  | Backoff, EvDone =>
      if ctx_Done (appCtx w) then Some (return_ w) else None
  | Backoff, EvTimer =>
      Some (dial (set_attempt (wrap_int (attempt w + 1)) (set_timer None w)))
  | Serving, EvDone =>
      if ctx_Done (appCtx w) then Some (return_ w) else None
  | Serving, EvSend => Some (serve w)
  | _, _ => None
  end.

Definition Start (ctx : Context) (w : World Options) : World Options :=
  if done_ (once (self w)) then w
  else
    let w := loop ctx w in
    set_self (set_once (mkOnce true false) (self w)) w.

(** *** The connectivity state watcher *)

(** What [conn.WaitForStateChange(ctx, state)] returns, together with the
    result of the [conn.GetState()] that follows a [true]. *)
Inductive wait_result : Type :=
  | wait_true (now : connectivity_State)
  | wait_false.

(** The goroutine of [watchConnectionState]: its local [state], the
    [metric_conn_state] child [m] with every value it was set to (newest
    first), and whether the function has returned. *)
Record Watcher : Type := mkWatcher {
  state : connectivity_State;
  metric_conn_state : Z;
  Set_calls : list Z;
  returned : bool
}.

Definition m_Set (s : connectivity_State) (k : Watcher) : Watcher :=
  mkWatcher s (float64_of_State s) (float64_of_State s :: Set_calls k) (returned k).

(** From the entry of [watchConnectionState] to the first
    [WaitForStateChange]; [s0] is what the first [GetState()] returns. *)
Definition watch_enter (s0 : connectivity_State) : Watcher :=
  m_Set s0 (mkWatcher s0 0 [] false).

(** One return of [WaitForStateChange]. *)
Definition watch_step (k : Watcher) (r : wait_result) : Watcher :=
  if returned k then k
  else match r with
       | wait_true now => m_Set now k
       | wait_false => mkWatcher (state k) (metric_conn_state k) (Set_calls k) true
       end.

Definition watchConnectionState (s0 : connectivity_State) (rs : list wait_result)
  : Watcher :=
  fold_left watch_step rs (watch_enter s0).
End part_000.

(** * Vocabulary of the statements *)

(** ** The three revisions side by side *)

Inductive revision : Type := rev_conn_go | rev_part_001 | rev_part_000.

Definition Options_of (r : revision) : Type :=
  match r with
  | rev_conn_go => conn_go.Options
  | rev_part_001 => part_001.Options
  | rev_part_000 => part_000.Options
  end.

Definition RetryConnect_of (r : revision) : Options_of r -> Retryer :=
  match r with
  | rev_conn_go => conn_go.RetryConnect
  | rev_part_001 => part_001.RetryConnect
  | rev_part_000 => part_000.RetryConnect
  end.

Definition Start_of (r : revision)
  : Context -> World (Options_of r) -> World (Options_of r) :=
  match r with
  | rev_conn_go => conn_go.Start
  | rev_part_001 => part_001.Start
  | rev_part_000 => part_000.Start
  end.

Definition step_of (r : revision)
  : World (Options_of r) -> event -> option (World (Options_of r)) :=
  match r with
  | rev_conn_go => conn_go.step
  | rev_part_001 => part_001.step
  | rev_part_000 => part_000.step
  end.

(** A run of revision [r] from the world of a Conn as New builds it, the
    metric children of its labels being [m0]. *)
Definition runs (r : revision) (m0 : Metrics) (n a : string) (o : Options_of r)
    (acts : list action)
  : option (World (Options_of r)) :=
  run (Start_of r) (step_of r) (init_world m0 (new_Conn n a o)) acts.

(** [k] failed dials, each followed by the expiry of its retry timer. *)
Fixpoint failures (err : error) (k : nat) : list action :=
  match k with
  | O => []
  | S k' => env (EvDialErr err) :: env EvTimer :: failures err k'
  end.

(** How many times Start is called in a run. *)
Fixpoint Start_calls (acts : list action) : nat :=
  match acts with
  | [] => O
  | call_Start _ :: rest => S (Start_calls rest)
  | env _ :: rest => Start_calls rest
  end.

Definition no_dial_ok (acts : list action) : Prop :=
  forall h, env (EvDialOk h) ∉ acts.

Definition no_cancel (acts : list action) : Prop :=
  forall e, env (EvCancel e) ∉ acts.

(** ** Invariants *)

Definition started (o : Once) : bool := done_ o || running o.

(** What holds of every world reachable from a fresh Conn: the Once has
    been entered iff the loop has; the loop was entered at most once; the
    channel is offered on while the loop serves, closed once it has
    returned and idle otherwise; the close of the channel stays deferred
    while the loop runs. *)
Record inv {Options : Type} (w : World Options) : Prop := mkInv {
  inv_once : started (once (self w)) = match pc w with NotStarted => false | _ => true end;
  inv_calls : loop_calls w = match pc w with NotStarted => 0%nat | _ => 1%nat end;
  inv_chan : requests (self w) = match pc w with
                                 | Serving => mkChan false (conn w)
                                 | Exited => mkChan true None
                                 | _ => mkChan false None
                                 end;
  inv_conn : pc w = Serving -> is_Some (conn w);
  inv_defers : match pc w with
               | Dialing | Backoff | Serving => defer_close_requests ∈ defers w
               | _ => True
               end
}.

(** Where Start spawns the loop ([go c.loop(ctx)]), the function given to
    the Once returns at once, so the Once is never seen running. *)
Definition inv_spawned {Options : Type} (w : World Options) : Prop :=
  inv w /\ running (once (self w)) = false /\ in_Start w = 0%nat.

(** Where Start runs the loop itself ([c.loop(ctx)] inside [once.Do]), the
    Once is done only when the loop has returned, and the first caller is
    inside Start for as long as the loop runs. *)
Definition inv_inline {Options : Type} (w : World Options) : Prop :=
  inv w /\
  done_ (once (self w)) = match pc w with Exited => true | _ => false end /\
  match pc w with
  | Dialing | Backoff | Serving => (1 <= in_Start w)%nat
  | _ => in_Start w = 0%nat
  end.

Definition inv_of (r : revision) : World (Options_of r) -> Prop :=
  match r with
  | rev_conn_go => inv_inline
  | rev_part_001 => inv_spawned
  | rev_part_000 => inv_spawned
  end.

(** ** The Pool and New *)

(** The map the [range] loop of NewPool builds from non-nil pointers. *)
Definition registered {Options : Type} (m : gmap string (ptr (Conn Options)))
    (xs : list (Conn Options)) : gmap string (ptr (Conn Options)) :=
  fold_left (fun m c => <[GetName c := Some c]> m) xs m.

(** The Options a successful [New] stores. *)
Definition chosen {Options : Type} (dflt : Options) (opts : list Options) : Options :=
  match opts with [] => dflt | o :: _ => o end.

(** One behaviour of the imported functions, to run the model on concrete
    inputs: an address is taken to split iff it is not empty, nothing is
    trimmed, and every retryer waits one second. *)
Definition example_externals : Externals :=
  {| net_SplitHostPort a :=
       if String.eqb a "" then ("", "", Some (library_error "missing port in address"))
       else (a, "", None);
     strings_TrimSpace a := a;
     retry_NewExp _ _ _ := mkRetryer (fun _ => Second) |}.

(** ** The serve phase *)

(** The loop is blocked offering handle [h] on the open channel. *)
Definition serving {Options : Type} (w : World Options) (h : ClientConn) : Prop :=
  pc w = Serving /\ conn w = Some h /\ requests (self w) = mkChan false (Some h).

(** Revision [r] keeps offering the handle for as long as the context
    given to Start is not cancelled: from a world in which the loop serves
    [h], whatever happens short of a cancellation leaves it serving [h]. *)
Definition serves_until_cancelled (r : revision) : Prop :=
  forall m0 n a o acts w h more w',
    runs r m0 n a o acts = Some w -> serving w h -> appCtx w = None ->
    no_cancel more ->
    run (Start_of r) (step_of r) w more = Some w' ->
    serving w' h /\ appCtx w' = None.

(** ** What GetConnection hands out *)

Definition never_a_handle {Options : Type} (c : Conn Options) : Prop :=
  forall ctx pick res, GetConnection c ctx pick = Some res -> res.1 = nil.

(** The shutdown clause as the specification words it: once the loop has
    returned, whatever a call of GetConnection returns is ErrShutdown. *)
Definition shutdown_always_reported (r : revision) : Prop :=
  forall m0 n a o acts w ctx pick res,
    runs r m0 n a o acts = Some w -> pc w = Exited ->
    GetConnection (self w) ctx pick = Some res ->
    res = (nil, Some ErrShutdown).

(** ** What a dial does to the counters *)

Definition on_dial_failure (r : revision) : Prop :=
  forall w err, pc w = Dialing ->
    exists w', step_of r w (EvDialErr err) = Some w' /\
      pc w' = Backoff /\
      metric_grpc_conns_err (metrics w')
        = Some (S (default 0%nat (metric_grpc_conns_err (metrics w)))) /\
      metric_grpc_conns (metrics w') = metric_grpc_conns (metrics w) /\
      timer w' = Some (Next (RetryConnect_of r (options (self w))) (attempt w)) /\
      attempt w' = attempt w.

Definition on_timer (r : revision) : Prop :=
  forall w, pc w = Backoff ->
    exists w', step_of r w EvTimer = Some w' /\
      pc w' = Dialing /\ attempt w' = wrap_int (attempt w + 1) /\
      metric_grpc_conns (metrics w')
        = Some (S (default 0%nat (metric_grpc_conns (metrics w)))).

(** The success clause as the specification words it. *)
Definition success_resets_and_marks (r : revision) : Prop :=
  forall m0 n a o acts w h w',
    runs r m0 n a o acts = Some w ->
    step_of r w (EvDialOk h) = Some w' ->
    attempt w' = 0 /\ metric_grpc_is_connected (metrics w') = Some 1.

(** What each revision does on a successful dial. *)
Definition on_dial_success (r : revision) : Prop :=
  forall w h, pc w = Dialing ->
    exists w', step_of r w (EvDialOk h) = Some w' /\
      pc w' = Serving /\ conn w' = Some h /\
      match r with
      | rev_conn_go =>
          attempt w' = 0 /\ metric_grpc_is_connected (metrics w') = Some 1 /\
          watchers w' = watchers w
      | rev_part_001 =>
          attempt w' = attempt w /\ metric_grpc_is_connected (metrics w') = Some 1 /\
          watchers w' = watchers w
      | rev_part_000 =>
          attempt w' = attempt w /\
          metric_grpc_is_connected (metrics w') = metric_grpc_is_connected (metrics w) /\
          watchers w' = h :: watchers w
      end.

(** What a failed dial followed by the expiry of its timer, repeated [k]
    times, leaves as it was, and what it counts. *)
Definition after_failures {Options : Type} (k : nat) (w w' : World Options) : Prop :=
  pc w' = Dialing /\ self w' = self w /\ appCtx w' = appCtx w /\
  in_Start w' = in_Start w /\ loop_calls w' = loop_calls w /\
  metric_grpc_is_connected (metrics w') = metric_grpc_is_connected (metrics w) /\
  default 0%nat (metric_grpc_conns_err (metrics w'))
    = (default 0%nat (metric_grpc_conns_err (metrics w)) + k)%nat /\
  default 0%nat (metric_grpc_conns (metrics w'))
    = (default 0%nat (metric_grpc_conns (metrics w)) + k)%nat.

(** Start returns at once: whatever has happened, no caller is inside
    Start. *)
Definition Start_returns_at_once (r : revision) : Prop :=
  forall m0 n a o acts w, runs r m0 n a o acts = Some w -> in_Start w = 0%nat.

(** The k-th failed dial in a row, counted from the call of Start: the
    world in which the loop waits after it. *)
Definition kth_failure (r : revision) (m0 : Metrics) (n a : string) (o : Options_of r)
    (ctx : Context) (err : error) (k : nat) : option (World (Options_of r)) :=
  runs r m0 n a o (call_Start ctx :: failures err (k - 1) ++ [env (EvDialErr err)]).

(** ** The watcher *)

(** The state the watcher saw last: the last of the transitions [ss], or
    the initial state [s0] when there was none. *)
Definition last_state (s0 : connectivity_State) (ss : list connectivity_State)
  : connectivity_State :=
  default s0 (last ss).

(** Once a dial has succeeded the loop serves or has returned, whatever
    happens next: it never dials again. *)
Definition no_redial (r : revision) : Prop :=
  forall m0 n a o acts w h w1 more w2,
    runs r m0 n a o acts = Some w ->
    step_of r w (EvDialOk h) = Some w1 ->
    run (Start_of r) (step_of r) w1 more = Some w2 ->
    pc w2 = Serving \/ pc w2 = Exited.

(** ** Counting the events of a run *)

Definition is_DialOk (ev : event) : bool :=
  match ev with EvDialOk _ => true | _ => false end.

(** How many steps of the loop satisfying [p] a run contains. *)
Fixpoint count_events (p : event -> bool) (acts : list action) : nat :=
  match acts with
  | [] => O
  | env ev :: rest => ((if p ev then 1 else 0) + count_events p rest)%nat
  | call_Start _ :: rest => count_events p rest
  end.

(** ** The frame of the loop and the handle *)

(** What the deferred calls and the handle look like at each program
    point: conn.go defers the close of the channel only; part_001 and
    part_000 defer a log line and the close of the channel on entry, and
    [conn.Close()] once a dial has succeeded. No handle is known before a
    dial succeeds. *)
Definition frame_inv (r : revision) (w : World (Options_of r)) : Prop :=
  match pc w with
  | NotStarted => defers w = [] /\ conn w = None
  | Dialing | Backoff =>
      conn w = None /\
      defers w = match r with
                 | rev_conn_go => [defer_close_requests]
                 | _ => [defer_close_requests; defer_log]
                 end
  | Serving =>
      exists h, conn w = Some h /\
      defers w = match r with
                 | rev_conn_go => [defer_close_requests]
                 | _ => [defer_conn_Close h; defer_close_requests; defer_log]
                 end
  | Exited => defers w = []
  end.

(** Whether the revision defers [conn.Close()] after a successful dial
    (part_001, part_000), and whether it starts the connectivity state
    watcher (part_000). *)
Definition defers_Close (r : revision) : bool :=
  match r with rev_conn_go => false | _ => true end.
Definition starts_watcher (r : revision) : bool :=
  match r with rev_part_000 => true | _ => false end.

(** The handles on which Close was called, and the watchers started. *)
Definition closed_and_watched (r : revision) (w : World (Options_of r)) : Prop :=
  closed_conns w = match pc w, conn w with
                   | Exited, Some h => if defers_Close r then [h] else []
                   | _, _ => []
                   end /\
  watchers w = match conn w with
               | Some h => if starts_watcher r then [h] else []
               | None => []
               end.

(** ** The contexts the selects wait on *)

(** In conn.go the context of the serve select is the dial context, which
    [cancel()] has closed by the time the loop serves; in part_001 and
    part_000 the loop has returned only if the context given to Start is
    done. *)
Definition ctx_inv (r : revision) (w : World (Options_of r)) : Prop :=
  if defers_Close r then pc w = Exited -> is_Some (appCtx w)
  else pc w = Serving -> is_Some (dialCtx w).

Definition full_inv (r : revision) (w : World (Options_of r)) : Prop :=
  inv_of r w /\ frame_inv r w /\ closed_and_watched r w /\ ctx_inv r w.

(** ** The is-connected gauge *)

(** The value of the is-connected gauge at each point, [g0] being the
    value the labels held when the Conn was built: part_000 never touches
    the gauge; conn.go and part_001 create the child when the loop starts
    (at 0 unless it exists already) and set it to 1 at the successful
    dial. *)
Definition is_connected_at (r : revision) (g0 : option Z) (w : World (Options_of r))
  : option Z :=
  if starts_watcher r then g0
  else match pc w, conn w with
       | NotStarted, _ => g0
       | _, Some _ => Some 1
       | _, None => Some (default 0 g0)
       end.

Definition gauge_inv (r : revision) (g0 : option Z) (w : World (Options_of r)) : Prop :=
  full_inv r w /\ metric_grpc_is_connected (metrics w) = is_connected_at r g0 w.

(** ** The watcher and its gauge *)


(** * Properties *)

(** ** The Pool *)

Section PoolFacts.
Context {Options : Type}.
Implicit Types (c : Conn Options) (xs : list (Conn Options)).
Implicit Types (m : gmap string (ptr (Conn Options))).


Lemma NewPool_range_registered xs : forall p,
  NewPool_range p (Some <$> xs) = Some (mkPool (registered (conns p) xs)).
Proof.
  induction xs as [|c xs IH]; intros [m]; simpl; [done|].
  by rewrite IH.
Qed.

Lemma registered_other xs : forall m n,
  n ∉ GetName <$> xs -> registered m xs !! n = m !! n.
Proof.
  induction xs as [|c xs IH]; intros m n Hn; simpl; [done|].
  rewrite fmap_cons in Hn. apply not_elem_of_cons in Hn as [Hne Hn].
  rewrite IH by done. by rewrite lookup_insert_ne.
Qed.

Lemma registered_last l1 c l2 : forall m,
  GetName c ∉ GetName <$> l2 ->
  registered m (l1 ++ c :: l2) !! GetName c = Some (Some c).
Proof.
  induction l1 as [|d l1 IH]; intros m Hn; simpl.
  - rewrite registered_other by done. apply lookup_insert_eq.
  - by apply IH.
Qed.

Lemma NewPool_nil_pointer_panics (l1 : list (Conn Options)) l2 :
  NewPool ((Some <$> l1) ++ nil :: l2) = None.
Proof.
  unfold NewPool. generalize (mkPool (Options:=Options) ∅).
  induction l1 as [|c l1 IH]; intros p; simpl; [done|]. apply IH.
Qed.
End PoolFacts.

Example Get_last_wins (o : unit) :
  let a := new_Conn "db" "h1:1" o in
  let b := new_Conn "mq" "h2:2" o in
  let c := new_Conn "db" "h3:3" o in
  (fun r => match r with
            | Some (Some p, None) => Some (Get p "db", Get p "mq", Get p "web")
            | _ => None
            end) (NewPool [Some a; Some b; Some c])
  = Some ((Some c, true), (Some b, true), (nil, false)).
Proof. destruct o. vm_compute. reflexivity. Qed.

(** C8: a Pool built from a list of Conns answers [found = false] for a
    name none of them carries, and for a name that occurs it answers the
    last Conn of the list with that name, with [found = true]. *)
Theorem C8_pool_get {Options : Type} (xs : list (Conn Options)) :
  exists p : Pool Options,
    NewPool (Some <$> xs) = Some (Some p, None) /\
    (forall n, n ∉ GetName <$> xs -> Get p n = (nil, false)) /\
    (forall (l1 : list (Conn Options)) c l2, xs = (l1 ++ c :: l2)%list -> GetName c ∉ GetName <$> l2 ->
       Get p (GetName c) = (Some c, true)).
Proof.
  exists (mkPool (registered ∅ xs)). split; [|split].
  - unfold NewPool. by rewrite NewPool_range_registered.
  - intros n Hn. unfold Get; simpl. by rewrite registered_other, lookup_empty.
  - intros l1 c l2 -> Hn. unfold Get; simpl. by rewrite registered_last.
Qed.

(** C10: NewPool does not fail: for every list of Conns, the empty list and
    lists with repeated names included, it returns a non-nil Pool and a nil
    error. *)
Theorem C10_NewPool_total {Options : Type} (xs : list (Conn Options)) :
  exists p : Pool Options, NewPool (Some <$> xs) = Some (Some p, None).
Proof.
  exists (mkPool (registered ∅ xs)).
  unfold NewPool. by rewrite NewPool_range_registered.
Qed.

Lemma C8_pool_get_witness :
  let a := new_Conn "db" "h1:1" tt in
  let b := new_Conn "mq" "h2:2" tt in
  let c := new_Conn "db" "h3:3" tt in
  exists p : Pool unit,
    NewPool [Some a; Some b; Some c] = Some (Some p, None) /\
    Get p "web" = (nil, false) /\
    Get p "mq" = (Some b, true) /\
    Get p "db" = (Some c, true).
Proof.
  intros a b c.
  destruct (C8_pool_get [a; b; c]) as (p & Hp & Hnone & Hlast).
  exists p. split; [exact Hp|]. split; [|split].
  - apply Hnone. simpl. intros Hin.
    repeat (apply elem_of_cons in Hin as [Hin|Hin]; [discriminate Hin|]).
    by apply elem_of_nil in Hin.
  - apply (Hlast [a] b [c]); [reflexivity|]. simpl. intros Hin.
    repeat (apply elem_of_cons in Hin as [Hin|Hin]; [discriminate Hin|]).
    by apply elem_of_nil in Hin.
  - apply (Hlast [a; b] c []); [reflexivity|]. simpl. apply not_elem_of_nil.
Defined.

(** ** New and the accessors *)


Lemma length_zero_empty (n : string) : (String.length n =? 0)%nat = true <-> n = "".
Proof. destruct n; simpl; split; intros; congruence. Qed.


Ltac New_cases :=
  repeat match goal with
         | |- context [(String.length ?n =? 0)%nat] =>
             let E := fresh "En" in
             destruct (String.length n =? 0)%nat eqn:E;
             [apply length_zero_empty in E
             |assert (n <> "") by (intros ->; discriminate E)]
         | |- context [(1 <? length ?l)%nat] =>
             let E := fresh "El" in
             destruct (1 <? length l)%nat eqn:E;
             [apply Nat.ltb_lt in E | apply Nat.ltb_ge in E]
         | |- context [net_SplitHostPort ?a] =>
             let E := fresh "Ea" in
             destruct (net_SplitHostPort a) as [[? ?] [?|]] eqn:E
         | |- context [String.eqb ?a ?b] =>
             let E := fresh "Et" in
             destruct (String.eqb a b) eqn:E;
             [apply String.eqb_eq in E | apply String.eqb_neq in E]
         end.

Ltac New_iff :=
  simpl in *; (split; [intros Hr | intros [Hn|[Ha|Hl]]]);
  simpl in *; try congruence; try lia; auto.

Section NewFacts.
Context `{Externals}.

Lemma conn_go_New_spec (n a : string) (opts : list conn_go.Options) :
  (conn_go.New n a opts).2 <> None <->
    n = "" \/ (net_SplitHostPort a).2 <> None \/ (1 < length opts)%nat.
Proof.
  unfold conn_go.New. New_cases; try destruct opts; New_iff.
Qed.

Lemma conn_go_New_ok (n a : string) (opts : list conn_go.Options) :
  (conn_go.New n a opts).2 = None ->
  conn_go.New n a opts = (Some (new_Conn n a (chosen conn_go.DefaultOptions opts)), None).
Proof.
  unfold conn_go.New. New_cases; try discriminate; destruct opts; simpl; congruence.
Qed.

Lemma part_001_New_spec (n a : string) (opts : list part_001.Options) :
  (part_001.New n a opts).2 <> None <->
    n = "" \/ (net_SplitHostPort a).2 <> None \/ (1 < length opts)%nat.
Proof.
  unfold part_001.New. New_cases; try destruct opts; New_iff.
Qed.

Lemma part_001_New_ok (n a : string) (opts : list part_001.Options) :
  (part_001.New n a opts).2 = None ->
  part_001.New n a opts = (Some (new_Conn n a (chosen part_001.DefaultOptions opts)), None).
Proof.
  unfold part_001.New. New_cases; try discriminate; destruct opts; simpl; congruence.
Qed.

Lemma part_000_New_spec (n a : string) (opts : list part_000.Options) :
  (part_000.New n a opts).2 <> None <->
    n = "" \/ strings_TrimSpace a = "" \/ (1 < length opts)%nat.
Proof.
  unfold part_000.New. New_cases; try destruct opts; New_iff.
Qed.

Lemma part_000_New_ok (n a : string) (opts : list part_000.Options) :
  (part_000.New n a opts).2 = None ->
  part_000.New n a opts = (Some (new_Conn n a (chosen part_000.DefaultOptions opts)), None).
Proof.
  unfold part_000.New. New_cases; try discriminate; destruct opts; simpl; congruence.
Qed.
End NewFacts.

Example conn_go_New_default :
  @conn_go.New example_externals "db" "localhost:5000" []
  = (Some (new_Conn "db" "localhost:5000" (@conn_go.DefaultOptions example_externals)), None).
Proof. reflexivity. Qed.

Example part_000_New_two_options (o1 o2 : part_000.Options) :
  @part_000.New example_externals "db" "localhost:5000" [o1; o2]
  = (nil, Some (errors_New "specify 0..1 Options")).
Proof. reflexivity. Qed.

(** C4: in each revision New returns an error exactly when the name is
    empty, the address is rejected (by net.SplitHostPort in conn.go and
    part_001, as blank after strings.TrimSpace in part_000) or more than one
    Options value is given; otherwise it returns, with a nil error, a Conn
    whose GetName and GetAddress are the arguments and whose GetOptions is
    the given Options value, or DefaultOptions when none was given. *)
Theorem C4_New_validation `{Externals} (n a : string) :
  (forall opts : list conn_go.Options,
     ((conn_go.New n a opts).2 <> None <->
        n = "" \/ (net_SplitHostPort a).2 <> None \/ (1 < length opts)%nat) /\
     ((conn_go.New n a opts).2 = None ->
        exists c, conn_go.New n a opts = (Some c, None) /\
          GetName c = n /\ GetAddress c = a /\
          GetOptions c = chosen conn_go.DefaultOptions opts)) /\
  (forall opts : list part_001.Options,
     ((part_001.New n a opts).2 <> None <->
        n = "" \/ (net_SplitHostPort a).2 <> None \/ (1 < length opts)%nat) /\
     ((part_001.New n a opts).2 = None ->
        exists c, part_001.New n a opts = (Some c, None) /\
          GetName c = n /\ GetAddress c = a /\
          GetOptions c = chosen part_001.DefaultOptions opts)) /\
  (forall opts : list part_000.Options,
     ((part_000.New n a opts).2 <> None <->
        n = "" \/ strings_TrimSpace a = "" \/ (1 < length opts)%nat) /\
     ((part_000.New n a opts).2 = None ->
        exists c, part_000.New n a opts = (Some c, None) /\
          GetName c = n /\ GetAddress c = a /\
          GetOptions c = chosen part_000.DefaultOptions opts)).
Proof.
  split; [|split]; intros opts; split.
  - apply conn_go_New_spec.
  - intros Hr. eexists. split; [by apply conn_go_New_ok|done].
  - apply part_001_New_spec.
  - intros Hr. eexists. split; [by apply part_001_New_ok|done].
  - apply part_000_New_spec.
  - intros Hr. eexists. split; [by apply part_000_New_ok|done].
Qed.

Lemma C4_New_validation_witness :
  let o := @part_000.OptionsInsecure example_externals in
  (exists c, @part_000.New example_externals "db" "localhost:5000" [o] = (Some c, None) /\
     GetName c = "db" /\ GetAddress c = "localhost:5000" /\ GetOptions c = o) /\
  (@conn_go.New example_externals "db" "" []).2 <> None.
Proof.
  intros o.
  destruct (@C4_New_validation example_externals "db" "localhost:5000")
    as (_ & _ & H0).
  destruct (@C4_New_validation example_externals "db" "") as (Hgo & _ & _).
  split.
  - apply (H0 [o]). reflexivity.
  - apply (Hgo []). right; left. simpl. discriminate.
Defined.

(** ** GetConnection *)

Section GetConnectionFacts.
Context {Options : Type}.
Implicit Types (c : Conn Options) (ctx : Context).

Lemma GetConnection_ctx_Done c ctx r :
  GetConnection c ctx case_ctx_Done = Some r <->
  exists e, ctx = Some e /\ r = (nil, Some (context_error e)).
Proof.
  unfold GetConnection, ctx_Done, ctx_Err. destruct ctx as [e|]; simpl.
  - split; [intros [= <-]; eauto | intros (e' & [= <-] & ->); done].
  - split; [done | intros (e' & [=] & _)].
Qed.

Lemma GetConnection_recv c ctx r :
  GetConnection c ctx case_recv = Some r <->
  (exists h, closed (requests c) = false /\ offered (requests c) = Some h /\
             r = (Some h, None)) \/
  (closed (requests c) = true /\ r = (nil, Some ErrShutdown)).
Proof.
  unfold GetConnection, recv.
  destruct (closed (requests c)); simpl.
  - split; [intros [= <-]; auto | intros [(h & [=] & _)|[_ ->]]; done].
  - destruct (offered (requests c)) as [h|]; simpl.
    + split; [intros [= <-]; eauto | intros [(h' & _ & [= <-] & ->)|[[=] _]]; done].
    + split; [done | intros [(h' & _ & [=] & _)|[[=] _]]].
Qed.

(** A call blocks as long as no case is ready. *)
Lemma GetConnection_blocks c ctx :
  (forall pick, GetConnection c ctx pick = None) <->
  ctx = None /\ closed (requests c) = false /\ offered (requests c) = None.
Proof.
  split.
  - intros Hb. pose proof (Hb case_ctx_Done) as H1. pose proof (Hb case_recv) as H2.
    unfold GetConnection, recv, ctx_Done in *.
    destruct ctx; simpl in *; [done|].
    destruct (closed (requests c)); simpl in *; [done|].
    destruct (offered (requests c)); simpl in *; done.
  - intros (-> & Hc & Ho) [|]; unfold GetConnection, recv; simpl; [done|].
    by rewrite Hc, Ho.
Qed.
End GetConnectionFacts.

Example GetConnection_offered :
  GetConnection (set_requests (mkChan false (Some 7%nat)) (new_Conn "db" "h:1" tt))
    None case_recv = Some (Some 7%nat, None).
Proof. reflexivity. Qed.

Example GetConnection_expired :
  GetConnection (new_Conn "db" "h:1" tt) (Some DeadlineExceeded) case_ctx_Done
  = Some (nil, Some (context_error DeadlineExceeded)).
Proof. reflexivity. Qed.

(** C2: what a call of GetConnection can return is exactly: the handle the
    loop is offering on the channel, with a nil error; nil and the error of
    the caller's context, when that context is done; nil and ErrShutdown,
    when the channel is closed. *)
Theorem C2_GetConnection_outcomes {Options : Type} (c : Conn Options)
    (ctx : Context) (r : ptr ClientConn * option error) :
  (exists pick, GetConnection c ctx pick = Some r) <->
  (exists h, closed (requests c) = false /\ offered (requests c) = Some h /\
             r = (Some h, None)) \/
  (exists e, ctx = Some e /\ r = (nil, Some (context_error e))) \/
  (closed (requests c) = true /\ r = (nil, Some ErrShutdown)).
Proof.
  split.
  - intros [[|] Hr].
    + apply GetConnection_ctx_Done in Hr. auto.
    + apply GetConnection_recv in Hr as [?|?]; auto.
  - intros [Hh|[He|Hs]].
    + exists case_recv. apply GetConnection_recv. auto.
    + exists case_ctx_Done. by apply GetConnection_ctx_Done.
    + exists case_recv. apply GetConnection_recv. auto.
Qed.

Lemma C2_GetConnection_outcomes_witness :
  exists pick,
    GetConnection (set_requests (close_chan make_chan) (new_Conn "db" "h:1" tt))
      (Some Canceled) pick = Some (nil, Some ErrShutdown).
Proof.
  apply (proj2 (C2_GetConnection_outcomes
                  (set_requests (close_chan make_chan) (new_Conn "db" "h:1" tt))
                  (Some Canceled) (nil, Some ErrShutdown))).
  right; right. split; reflexivity.
Defined.

(** ** The reconnect loop: invariants of the world *)

Section WorldFacts.
Context {Options : Type}.
Implicit Types (w : World Options) (ds : list deferred).

(** The deferred calls touch the channel and the list of closed handles,
    nothing else. *)
Lemma fold_run_deferred ds : forall w,
  exists ch cc,
    fold_left run_deferred ds w
      = set_closed_conns cc (set_self (set_requests ch (self w)) w) /\
    (defer_close_requests ∈ ds -> ch = mkChan true None) /\
    (defer_close_requests ∉ ds -> ch = requests (self w)).
Proof.
  induction ds as [|d ds IH]; intros w; simpl.
  - exists (requests (self w)), (closed_conns w).
    split; [by destruct w as [[]]|]. split; [|done].
    intros Hin. by apply elem_of_nil in Hin.
  - destruct (IH (run_deferred w d)) as (ch & cc & -> & Hin & Hout).
    destruct d; simpl in *.
    + exists ch, cc. split; [done|]. split.
      * intros [?|?]%elem_of_cons; [done|auto].
      * intros [? ?]%not_elem_of_cons. auto.
    + exists (match ch with mkChan _ _ => mkChan true None end), cc.
      destruct w as [[]]; simpl in *.
      destruct (decide (defer_close_requests ∈ ds)) as [Hd|Hd].
      * rewrite (Hin Hd). split; [done|]. split; [done|].
        intros [? ?]%not_elem_of_cons. done.
      * rewrite (Hout Hd). unfold close_chan. split; [done|]. split; [done|].
        intros [? ?]%not_elem_of_cons. done.
    + exists ch, cc. split; [by destruct w as [[]]|]. split.
      * intros [?|?]%elem_of_cons; [done|auto].
      * intros [? ?]%not_elem_of_cons. auto.
Qed.
End WorldFacts.

Section Invariant.
Context {Options : Type}.
Implicit Types (w : World Options).

Lemma inv_init (m0 : Metrics) (n a : string) (o : Options) : inv (init_world m0 (new_Conn n a o)).
Proof. split; simpl; try done. Qed.

Lemma inv_spawned_init (m0 : Metrics) (n a : string) (o : Options) : inv_spawned (init_world m0 (new_Conn n a o)).
Proof. split; [apply inv_init|done]. Qed.

Lemma inv_inline_init (m0 : Metrics) (n a : string) (o : Options) : inv_inline (init_world m0 (new_Conn n a o)).
Proof. split; [apply inv_init|done]. Qed.

Lemma inv_return w :
  inv w -> pc w <> NotStarted -> pc w <> Exited ->
  exists ch cc,
    return_ w = set_pc Exited (set_defers [] (set_closed_conns cc
                  (set_self (set_requests ch (self w)) w))) /\
    ch = mkChan true None.
Proof.
  intros [_ _ _ _ Hd] Hn He. unfold return_.
  destruct (fold_run_deferred (defers w) w) as (ch & cc & -> & Hin & _).
  exists ch, cc. split; [done|]. apply Hin. by destruct (pc w).
Qed.

Section Reach.
Variable Start : Context -> World Options -> World Options.
Variable step : World Options -> event -> option (World Options).

(** A property kept by every call of Start and every step is kept by
    every run. *)
Lemma run_preserves (I : World Options -> Prop) :
  (forall ctx w, I w -> I (Start ctx w)) ->
  (forall w ev w', I w -> step w ev = Some w' -> I w') ->
  forall acts w w', I w -> run Start step w acts = Some w' -> I w'.
Proof.
  intros HStart Hstep.
  induction acts as [|a acts IH]; intros w w' Hw; simpl.
  - by intros [= <-].
  - destruct a as [ctx|ev]; simpl.
    + apply IH. by apply HStart.
    + destruct (step w ev) as [w1|] eqn:E; [|done]. apply IH. by eapply Hstep.
Qed.

Lemma run_app acts1 : forall acts2 w,
  run Start step w (acts1 ++ acts2)
  = match run Start step w acts1 with
    | Some w1 => run Start step w1 acts2
    | None => None
    end.
Proof.
  induction acts1 as [|a acts1 IH]; intros acts2 w; simpl; [done|].
  destruct (exec Start step w a); [apply IH|done].
Qed.
End Reach.
End Invariant.

(** Case analysis of one step: the world by its fields, then the program
    point and the event. *)
Ltac world_cases w ev :=
  destruct w as [[? ? ? [? ?] [? ?]] [] ? ? ? ? ? ? [? ? ?] ? ? ? ?];
  destruct ev; simpl in *.

Ltac inv_fields H :=
  destruct H as [?Hio ?Hic ?Hich ?Hicn ?Hid]; simpl in *.

Ltac inv_finish w Hw :=
  inv_fields Hw;
  destruct w as [[? ? ? [? ?] [? ?]] ? ? ? ? ? ? ? [? ? ?] ? ? ? ?];
  unfold started in *; simplify_eq/=;
  repeat split; simpl; try done; try lia; try (apply elem_of_cons; auto).

Lemma conn_go_inv_step (w : World conn_go.Options) ev w' :
  inv_inline w -> conn_go.step w ev = Some w' -> inv_inline w'.
Proof.
  intros (Hw & Hd & Hi) Hs. unfold conn_go.step in Hs. unfold inv_inline.
  destruct (pc w) eqn:Epc, ev; try discriminate Hs;
    try (destruct (ctx_Done (appCtx w)); [|discriminate Hs]);
    try (destruct (ctx_Done (dialCtx w)); [|discriminate Hs]);
    injection Hs as <-; unfold conn_go.loop_return;
    try (destruct (inv_return w Hw) as (ch & cc & -> & ->); [congruence..|]);
    inv_finish w Hw.
Qed.

Lemma conn_go_inv_Start ctx (w : World conn_go.Options) :
  inv_inline w -> inv_inline (conn_go.Start ctx w).
Proof.
  intros (Hw & Hd & Hi). unfold conn_go.Start, inv_inline.
  destruct (done_ (once (self w))) eqn:Ed; [simpl; rewrite ?Ed; by auto|].
  destruct (running (once (self w))) eqn:Er;
    destruct (pc w) eqn:Epc; inv_finish w Hw.
Qed.

Lemma part_001_inv_step (w : World part_001.Options) ev w' :
  inv_spawned w -> part_001.step w ev = Some w' -> inv_spawned w'.
Proof.
  intros (Hw & Hr & Hi) Hs. unfold part_001.step in Hs. unfold inv_spawned.
  destruct (pc w) eqn:Epc, ev; try discriminate Hs;
    try (destruct (ctx_Done (appCtx w)); [|discriminate Hs]);
    injection Hs as <-;
    try (destruct (inv_return w Hw) as (ch & cc & -> & ->); [congruence..|]);
    inv_finish w Hw.
Qed.

Lemma part_001_inv_Start ctx (w : World part_001.Options) :
  inv_spawned w -> inv_spawned (part_001.Start ctx w).
Proof.
  intros (Hw & Hr & Hi). unfold part_001.Start, inv_spawned.
  destruct (done_ (once (self w))) eqn:Ed; [simpl; rewrite ?Ed; by auto|].
  destruct (pc w) eqn:Epc; inv_finish w Hw.
Qed.

Lemma part_000_inv_step (w : World part_000.Options) ev w' :
  inv_spawned w -> part_000.step w ev = Some w' -> inv_spawned w'.
Proof.
  intros (Hw & Hr & Hi) Hs. unfold part_000.step in Hs. unfold inv_spawned.
  destruct (pc w) eqn:Epc, ev; try discriminate Hs;
    try (destruct (ctx_Done (appCtx w)); [|discriminate Hs]);
    injection Hs as <-;
    try (destruct (inv_return w Hw) as (ch & cc & -> & ->); [congruence..|]);
    inv_finish w Hw.
Qed.

Lemma part_000_inv_Start ctx (w : World part_000.Options) :
  inv_spawned w -> inv_spawned (part_000.Start ctx w).
Proof.
  intros (Hw & Hr & Hi). unfold part_000.Start, inv_spawned.
  destruct (done_ (once (self w))) eqn:Ed; [simpl; rewrite ?Ed; by auto|].
  destruct (pc w) eqn:Epc; inv_finish w Hw.
Qed.

(** ** The revisions side by side *)

Lemma inv_of_inv (r : revision) (w : World (Options_of r)) : inv_of r w -> inv w.
Proof. destruct r; simpl; by intros []. Qed.

Lemma inv_of_Start (r : revision) ctx (w : World (Options_of r)) :
  inv_of r w -> inv_of r (Start_of r ctx w).
Proof.
  destruct r; simpl;
    [apply conn_go_inv_Start|apply part_001_inv_Start|apply part_000_inv_Start].
Qed.

Lemma inv_of_step (r : revision) (w : World (Options_of r)) ev w' :
  inv_of r w -> step_of r w ev = Some w' -> inv_of r w'.
Proof.
  destruct r; simpl;
    [apply conn_go_inv_step|apply part_001_inv_step|apply part_000_inv_step].
Qed.

Lemma inv_of_run (r : revision) acts (w w' : World (Options_of r)) :
  inv_of r w -> run (Start_of r) (step_of r) w acts = Some w' -> inv_of r w'.
Proof.
  apply (run_preserves (Start_of r) (step_of r) (inv_of r)).
  - intros ctx w0. apply inv_of_Start.
  - intros w0 ev w1. apply inv_of_step.
Qed.

Lemma runs_inv_of (r : revision) m0 n a o acts w :
  runs r m0 n a o acts = Some w -> inv_of r w.
Proof.
  apply inv_of_run. destruct r; simpl; [apply inv_inline_init|apply inv_spawned_init..].
Qed.

(** ** C1: the serve phase *)

Ltac serving_finish w :=
  destruct w as [[? ? ? [? ?] [? ?]] ? ? ? ? ? ? ? [? ? ?] ? ? ? ?];
  unfold serving in *; simplify_eq/=; try done.

(** In part_001 and part_000 a step of a serving loop leaves it serving
    the same handle, unless the context given to Start is done. *)
Lemma serving_step (r : revision) (w : World (Options_of r)) h ev w' :
  r <> rev_conn_go ->
  serving w h -> appCtx w = None -> (forall e, ev <> EvCancel e) ->
  step_of r w ev = Some w' ->
  serving w' h /\ appCtx w' = None.
Proof.
  intros Hr (Hpc & Hc & Hch) Hctx Hev Hs.
  destruct r; [done|..]; simpl in *.
  - unfold part_001.step in Hs. rewrite Hpc, Hctx in Hs.
    destruct ev; simplify_eq/=; try (by destruct (Hev e)); serving_finish w.
  - unfold part_000.step in Hs. rewrite Hpc, Hctx in Hs.
    destruct ev; simplify_eq/=; try (by destruct (Hev e)); serving_finish w.
Qed.


Lemma serving_Start (r : revision) (w : World (Options_of r)) h ctx :
  r <> rev_conn_go -> inv_of r w -> serving w h -> Start_of r ctx w = w.
Proof.
  intros Hr Hw (Hpc & _). destruct r; [done|..]; simpl in *;
    destruct Hw as [[Ho _ _ _ _] [Hrun _]]; rewrite Hpc in Ho; unfold started in Ho;
    rewrite Hrun, orb_false_r in Ho.
  - unfold part_001.Start. by rewrite Ho.
  - unfold part_000.Start. by rewrite Ho.
Qed.

Lemma serving_run (r : revision) more : forall (w : World (Options_of r)) h w',
  r <> rev_conn_go -> inv_of r w ->
  serving w h -> appCtx w = None -> no_cancel more ->
  run (Start_of r) (step_of r) w more = Some w' ->
  serving w' h /\ appCtx w' = None.
Proof.
  induction more as [|act more IH]; intros w h w' Hr Hw Hs Hctx Hnc; simpl.
  - by intros [= <-].
  - assert (no_cancel more) as Hnc'.
    { intros e Hin. apply (Hnc e). by apply list_elem_of_further. }
    destruct act as [ctx|ev]; simpl.
    + rewrite (serving_Start r w h ctx) by done. by apply IH.
    + destruct (step_of r w ev) as [w1|] eqn:E; [|done].
      destruct (serving_step r w h ev w1) as [Hs1 Hctx1]; try done.
      { intros e ->. apply (Hnc e). apply list_elem_of_here. }
      apply IH; try done. by eapply inv_of_step.
Qed.

Lemma part_000_serves_until_cancelled : serves_until_cancelled rev_part_000.
Proof.
  intros m0 n a o acts w h more w' Hrun Hs Hctx Hnc Hmore.
  eapply serving_run; eauto. by eapply runs_inv_of.
Qed.

Lemma part_001_serves_until_cancelled : serves_until_cancelled rev_part_001.
Proof.
  intros m0 n a o acts w h more w' Hrun Hs Hctx Hnc Hmore.
  eapply serving_run; eauto. by eapply runs_inv_of.
Qed.

(** In part_001 and part_000 the serve phase is left only by returning,
    and only when the context given to Start is done. *)
Lemma serving_exit (r : revision) (w : World (Options_of r)) h ev w' :
  r <> rev_conn_go -> serving w h -> step_of r w ev = Some w' ->
  pc w' <> Serving -> ev = EvDone /\ pc w' = Exited /\ appCtx w <> None.
Proof.
  intros Hr (Hpc & Hc & Hch) Hs Hpc'.
  destruct r; [done|..]; simpl in *.
  - unfold part_001.step in Hs. rewrite Hpc in Hs.
    destruct ev; simplify_eq/=; try (by destruct w).
    destruct (appCtx w); simplify_eq/=. done.
  - unfold part_000.step in Hs. rewrite Hpc in Hs.
    destruct ev; simplify_eq/=; try (by destruct w).
    destruct (appCtx w); simplify_eq/=. done.
Qed.

Example conn_go_connects_then_returns :
  (fun w => (pc w, appCtx w, requests (self w), in_Start w))
    <$> runs rev_conn_go no_metrics "db" "localhost:5000" (@conn_go.DefaultOptions example_externals)
          [call_Start None; env (EvDialOk 7%nat); env EvDone]
  = Some (Exited, None, mkChan true None, 0%nat).
Proof. reflexivity. Qed.

Example part_000_connects_and_stays :
  (fun w => (pc w, appCtx w, requests (self w)))
    <$> runs rev_part_000 no_metrics "db" "localhost:5000" (@part_000.DefaultOptions example_externals)
          [call_Start None; env (EvDialOk 7%nat); env EvSend; env EvSend]
  = Some (Serving, None, mkChan false (Some 7%nat)) /\
  runs rev_part_000 no_metrics "db" "localhost:5000" (@part_000.DefaultOptions example_externals)
          [call_Start None; env (EvDialOk 7%nat); env EvDone] = None.
Proof. split; reflexivity. Qed.

(** C1 (conn.go): after a successful dial the serve select of conn.go waits
    on the Done channel of the dial context, which [cancel()] has closed
    already; so the loop can return, and close the channel, while the
    context given to Start is not cancelled. *)
Theorem C1_conn_go_serve_returns_uncancelled (m0 : Metrics) (n a : string) (o : conn_go.Options)
    (h : ClientConn) :
  exists w w',
    runs rev_conn_go m0 n a o [call_Start None; env (EvDialOk h)] = Some w /\
    serving w h /\ appCtx w = None /\
    step_of rev_conn_go w EvDone = Some w' /\
    pc w' = Exited /\ appCtx w' = None /\ requests (self w') = mkChan true None.
Proof.
  eexists _, _. split; [reflexivity|].
  split; [done|]. split; [reflexivity|].
  split; [reflexivity|]. done.
Qed.

Lemma conn_go_not_serves_until_cancelled : ~ serves_until_cancelled rev_conn_go.
Proof.
  intros Hc.
  pose proof (fun w w' =>
    Hc no_metrics "db" "h:1" (conn_go.mkOptions 0 (mkRetryer (fun _ => 0)) [])
       [call_Start None; env (EvDialOk 1%nat)] w 1%nat [env EvDone] w') as H.
  edestruct H as [(Hpc & _) _].
  - reflexivity.
  - done.
  - reflexivity.
  - intros e Hin. apply list_elem_of_singleton in Hin. done.
  - reflexivity.
  - discriminate Hpc.
Qed.

(** ** C3: no handle before the first dial succeeds, none after the loop
    has returned *)

Lemma not_serving_step (r : revision) (w : World (Options_of r)) ev w' :
  pc w <> Serving -> (forall h, ev <> EvDialOk h) ->
  step_of r w ev = Some w' -> pc w' <> Serving.
Proof.
  intros Hpc Hev Hs.
  destruct r; simpl in *;
    [unfold conn_go.step in Hs|unfold part_001.step in Hs|unfold part_000.step in Hs];
    destruct (pc w) eqn:Epc, ev; try done; try (by destruct (Hev c));
    try (destruct (ctx_Done (appCtx w)); [|done]);
    injection Hs as <-; simpl; try done; by rewrite Epc.
Qed.

Lemma not_serving_Start (r : revision) (w : World (Options_of r)) ctx :
  pc w <> Serving -> pc (Start_of r ctx w) <> Serving.
Proof.
  intros Hpc.
  destruct r; simpl in *;
    [unfold conn_go.Start|unfold part_001.Start|unfold part_000.Start];
    repeat match goal with |- context [if ?b then _ else _] => destruct b end;
    simpl; done.
Qed.

Lemma not_serving_run (r : revision) acts : forall (w w' : World (Options_of r)),
  pc w <> Serving -> no_dial_ok acts ->
  run (Start_of r) (step_of r) w acts = Some w' -> pc w' <> Serving.
Proof.
  induction acts as [|act acts IH]; intros w w' Hpc Hnd; simpl.
  - by intros [= <-].
  - assert (no_dial_ok acts) as Hnd'.
    { intros h Hin. apply (Hnd h). by apply list_elem_of_further. }
    destruct act as [ctx|ev]; simpl.
    + apply IH; [|done]. by apply not_serving_Start.
    + destruct (step_of r w ev) as [w1|] eqn:E; [|done].
      apply IH; [|done]. eapply not_serving_step; [done| |done].
      intros h ->. apply (Hnd h). apply list_elem_of_here.
Qed.

Lemma idle_or_closed_never_a_handle {Options : Type} (c : Conn Options) :
  offered (requests c) = None -> never_a_handle c.
Proof.
  intros Ho ctx [|] res; unfold GetConnection, recv; rewrite ?Ho.
  - destruct (ctx_Done ctx); [by intros [= <-]|done].
  - destruct (closed (requests c)); simpl; [by intros [= <-]|done].
Qed.

Lemma closed_GetConnection {Options : Type} (c : Conn Options) :
  requests c = mkChan true None ->
  (forall ctx, GetConnection c ctx case_recv = Some (nil, Some ErrShutdown)) /\
  (forall pick res, GetConnection c None pick = Some res ->
     res = (nil, Some ErrShutdown)) /\
  (forall e pick res, GetConnection c (Some e) pick = Some res ->
     res = (nil, Some ErrShutdown) \/ res = (nil, Some (context_error e))).
Proof.
  intros Hch. unfold GetConnection, recv. rewrite Hch. simpl.
  split; [done|]. split.
  - intros [|] res; [done|by intros [= <-]].
  - intros e [|] res; intros [= <-]; auto.
Qed.

Lemma exited_step (r : revision) (w : World (Options_of r)) ev w' :
  pc w = Exited -> step_of r w ev = Some w' ->
  pc w' = Exited /\ requests (self w') = requests (self w).
Proof.
  intros Hpc Hs.
  destruct r; simpl in *;
    [unfold conn_go.step in Hs|unfold part_001.step in Hs|unfold part_000.step in Hs];
    rewrite Hpc in Hs; destruct ev; simplify_eq/=; done.
Qed.

Lemma exited_Start (r : revision) (w : World (Options_of r)) ctx :
  inv_of r w -> pc w = Exited ->
  pc (Start_of r ctx w) = Exited /\
  requests (self (Start_of r ctx w)) = requests (self w).
Proof.
  intros Hw Hpc.
  destruct r; simpl in *;
    [unfold conn_go.Start|unfold part_001.Start|unfold part_000.Start];
    [destruct Hw as [[Ho _ _ _ _] _]|destruct Hw as [[Ho _ _ _ _] [Hr _]]..];
    rewrite Hpc in Ho; unfold started in Ho;
    destruct (done_ (once (self w))); try done; simpl in Ho;
    [rewrite Ho; simpl; auto|congruence..].
Qed.

Lemma exited_run (r : revision) more : forall (w w' : World (Options_of r)),
  inv_of r w -> pc w = Exited ->
  run (Start_of r) (step_of r) w more = Some w' ->
  pc w' = Exited /\ requests (self w') = requests (self w).
Proof.
  induction more as [|act more IH]; intros w w' Hw Hpc; simpl.
  - by intros [= <-].
  - destruct act as [ctx|ev]; simpl.
    + destruct (exited_Start r w ctx Hw Hpc) as [Hpc1 <-].
      apply IH; [by apply inv_of_Start|done].
    + destruct (step_of r w ev) as [w1|] eqn:E; [|done].
      destruct (exited_step r w ev w1 Hpc E) as [Hpc1 <-].
      apply IH; [by eapply inv_of_step|done].
Qed.

Example part_000_shutdown :
  (fun w => (pc w, closed_conns w,
             GetConnection (self w) None case_recv,
             GetConnection (self w) (Some DeadlineExceeded) case_ctx_Done))
    <$> runs rev_part_000 no_metrics "db" "localhost:5000" (@part_000.DefaultOptions example_externals)
          [call_Start None; env (EvDialOk 7%nat); env EvSend;
           env (EvCancel Canceled); env EvDone]
  = Some (Exited, [7%nat],
          Some (nil, Some ErrShutdown),
          Some (nil, Some (context_error DeadlineExceeded))).
Proof. reflexivity. Qed.

(** C3, as the specification words its last clause, fails: after the loop
    has returned, a caller whose own context is done can get that
    context's error instead of ErrShutdown. *)
Lemma C3_shutdown_not_always_reported : ~ shutdown_always_reported rev_part_000.
Proof.
  intros Hc.
  destruct (runs rev_part_000 no_metrics "db" "h:1" (part_000.mkOptions (mkRetryer (fun _ => 0)) [])
              [call_Start None; env (EvDialOk 1%nat); env (EvCancel Canceled); env EvDone])
    as [w|] eqn:E; [|vm_compute in E; discriminate E].
  assert (pc w = Exited) as Hpc.
  { vm_compute in E. injection E as <-. reflexivity. }
  specialize (Hc _ _ _ _ _ w (Some DeadlineExceeded) case_ctx_Done
                (nil, Some (context_error DeadlineExceeded)) E Hpc eq_refl).
  discriminate Hc.
Qed.

(** C3 (amended): in every revision, along every run from a fresh Conn,
    no call of GetConnection gets a handle before a dial has succeeded;
    once the loop has returned the channel is closed, no call gets a handle
    any more, the receive case is ready and yields ErrShutdown, a caller
    whose context is not done gets ErrShutdown and nothing else, a caller
    whose context is done gets ErrShutdown or its context's error; and this
    stays so whatever happens afterwards. *)
Theorem C3_handles_and_shutdown (r : revision) (m0 : Metrics) (n a : string) (o : Options_of r)
    (acts : list action) (w : World (Options_of r))
    (Hrun : runs r m0 n a o acts = Some w) :
  (no_dial_ok acts -> never_a_handle (self w)) /\
  (pc w = Exited ->
     closed (requests (self w)) = true /\
     never_a_handle (self w) /\
     (forall ctx, GetConnection (self w) ctx case_recv = Some (nil, Some ErrShutdown)) /\
     (forall pick res, GetConnection (self w) None pick = Some res ->
        res = (nil, Some ErrShutdown)) /\
     (forall e pick res, GetConnection (self w) (Some e) pick = Some res ->
        res = (nil, Some ErrShutdown) \/ res = (nil, Some (context_error e))) /\
     (forall more w', run (Start_of r) (step_of r) w more = Some w' ->
        pc w' = Exited /\ requests (self w') = requests (self w))).
Proof.
  pose proof (runs_inv_of r m0 n a o acts w Hrun) as Hw.
  pose proof (inv_of_inv r w Hw) as [_ _ Hch _ _].
  split.
  - intros Hnd. apply idle_or_closed_never_a_handle.
    assert (pc w <> Serving) as Hpc.
    { eapply (not_serving_run r acts); [|done|exact Hrun]. done. }
    rewrite Hch. by destruct (pc w).
  - intros Hpc. rewrite Hpc in Hch.
    destruct (closed_GetConnection (self w) Hch) as (H1 & H2 & H3).
    split; [by rewrite Hch|]. split.
    { apply idle_or_closed_never_a_handle. by rewrite Hch. }
    split; [done|]. split; [done|]. split; [done|].
    intros more w'. by apply exited_run.
Qed.

Lemma C3_handles_and_shutdown_witness :
  let o := part_000.mkOptions (mkRetryer (fun _ => Second)) [] in
  let acts := [call_Start None; env (EvDialErr (library_error "refused"));
               env (EvCancel Canceled); env EvDone] in
  exists w, runs rev_part_000 no_metrics "db" "h:1" o acts = Some w /\
    pc w = Exited /\ never_a_handle (self w) /\
    GetConnection (self w) None case_recv = Some (nil, Some ErrShutdown).
Proof.
  intros o acts.
  destruct (runs rev_part_000 no_metrics "db" "h:1" o acts) as [w|] eqn:E;
    [|vm_compute in E; discriminate E].
  exists w. split; [reflexivity|].
  destruct (C3_handles_and_shutdown rev_part_000 no_metrics "db" "h:1" o acts w E)
    as [Hbefore Hafter].
  assert (pc w = Exited) as Hpc.
  { vm_compute in E. injection E as <-. reflexivity. }
  split; [exact Hpc|]. split.
  - apply Hbefore. intros h Hin.
    repeat (apply elem_of_cons in Hin as [Hin|Hin]; [discriminate Hin|]).
    by apply elem_of_nil in Hin.
  - by apply Hafter.
Defined.

(** ** C5 and C6: Start *)

Lemma started_step (r : revision) (w : World (Options_of r)) ev w' :
  pc w <> NotStarted -> step_of r w ev = Some w' -> pc w' <> NotStarted.
Proof.
  intros Hpc Hs.
  destruct r; simpl in *;
    [unfold conn_go.step in Hs|unfold part_001.step in Hs|unfold part_000.step in Hs];
    destruct (pc w) eqn:Epc, ev; try done;
    try (destruct (ctx_Done (appCtx w)); [|done]);
    try (destruct (ctx_Done (dialCtx w)); [|done]);
    injection Hs as <-; simpl; try done; by rewrite Epc.
Qed.

Lemma started_Start (r : revision) (w : World (Options_of r)) ctx :
  inv_of r w -> pc (Start_of r ctx w) <> NotStarted.
Proof.
  intros Hw. apply inv_of_inv in Hw as [Ho _ _ _ _]. unfold started in Ho.
  destruct r; simpl in *;
    [unfold conn_go.Start|unfold part_001.Start|unfold part_000.Start];
    destruct (done_ (once (self w))); simpl in *;
    try destruct (running (once (self w))); simpl in *;
    try done; by destruct (pc w).
Qed.

Lemma started_run (r : revision) acts : forall (w w' : World (Options_of r)),
  inv_of r w -> pc w <> NotStarted \/ (1 <= Start_calls acts)%nat ->
  run (Start_of r) (step_of r) w acts = Some w' -> pc w' <> NotStarted.
Proof.
  induction acts as [|act acts IH]; intros w w' Hw Hor; simpl.
  - intros [= <-]. destruct Hor as [?|Hl]; [done|simpl in Hl; lia].
  - destruct act as [ctx|ev]; simpl in *.
    + apply IH; [by apply inv_of_Start|]. left. by apply started_Start.
    + destruct (step_of r w ev) as [w1|] eqn:E; [|done].
      apply IH; [by eapply inv_of_step|].
      destruct Hor as [Hpc|?]; [left|by right]. by eapply started_step.
Qed.

(** A second call of Start changes nothing, except that in conn.go, while
    the loop still runs inside the first call, the caller waits for it. *)
Lemma Start_again (r : revision) (w : World (Options_of r)) ctx :
  inv_of r w -> pc w <> NotStarted ->
  set_in_Start (in_Start w) (Start_of r ctx w) = w /\
  (done_ (once (self w)) = true -> Start_of r ctx w = w) /\
  done_ (once (self w))
    = match r with
      | rev_conn_go => bool_decide (pc w = Exited)
      | _ => true
      end.
Proof.
  intros Hw Hpc.
  destruct r; simpl in *;
    [unfold conn_go.Start|unfold part_001.Start|unfold part_000.Start];
    [destruct Hw as ([Ho _ _ _ _] & Hd & _)|destruct Hw as ([Ho _ _ _ _] & Hr & _)..];
    unfold started in Ho.
  - rewrite Hd. destruct (pc w) eqn:Epc; try done; simpl in *;
      rewrite Hd in Ho; simpl in Ho; rewrite ?Ho; destruct w; repeat split; done.
  - rewrite Hr, orb_false_r in Ho. rewrite Ho.
    destruct (pc w) eqn:Epc; try done; destruct w; repeat split; done.
  - rewrite Hr, orb_false_r in Ho. rewrite Ho.
    destruct (pc w) eqn:Epc; try done; destruct w; repeat split; done.
Qed.

Example part_000_Start_three_times :
  (fun w => (loop_calls w, pc w, in_Start w, metric_grpc_conns (metrics w)))
    <$> runs rev_part_000 no_metrics "db" "localhost:5000" (@part_000.DefaultOptions example_externals)
          [call_Start None; call_Start None; env (EvDialOk 7%nat); call_Start (Some Canceled)]
  = Some (1%nat, Serving, 0%nat, Some 1%nat).
Proof. reflexivity. Qed.

(** C5: along every run from a fresh Conn in which Start is called at least
    once, however the calls are interleaved with the steps of the loop, the
    loop has been entered exactly once; a further call of Start changes
    nothing of the world (in conn.go, where the loop runs inside the first
    call, a call made before the loop has returned only adds a caller
    waiting inside Start). *)
Theorem C5_Start_enters_loop_once (r : revision) (m0 : Metrics) (n a : string) (o : Options_of r)
    (acts : list action) (w : World (Options_of r))
    (Hrun : runs r m0 n a o acts = Some w)
    (Hcalls : (1 <= Start_calls acts)%nat) :
  loop_calls w = 1%nat /\
  (forall ctx, set_in_Start (in_Start w) (Start_of r ctx w) = w) /\
  (forall ctx, done_ (once (self w)) = true -> Start_of r ctx w = w) /\
  done_ (once (self w))
    = match r with
      | rev_conn_go => bool_decide (pc w = Exited)
      | _ => true
      end.
Proof.
  pose proof (runs_inv_of r m0 n a o acts w Hrun) as Hw.
  assert (pc w <> NotStarted) as Hpc.
  { eapply (started_run r acts); [|by right|exact Hrun].
    destruct r; simpl; [apply inv_inline_init|apply inv_spawned_init..]. }
  split.
  - apply inv_of_inv in Hw as [_ Hc _ _ _]. rewrite Hc. by destruct (pc w).
  - pose proof (fun ctx => Start_again r w ctx Hw Hpc) as Hs.
    split; [|split].
    + intros ctx. apply (Hs ctx).
    + intros ctx. apply (Hs ctx).
    + apply (Hs None).
Qed.

Lemma C5_Start_enters_loop_once_witness :
  let o := conn_go.mkOptions (15 * Second) (mkRetryer (fun _ => Second)) [] in
  let acts := [call_Start None; call_Start None; env (EvDialErr (library_error "refused"));
               call_Start None] in
  exists w, runs rev_conn_go no_metrics "db" "h:1" o acts = Some w /\ loop_calls w = 1%nat.
Proof.
  intros o acts.
  destruct (runs rev_conn_go no_metrics "db" "h:1" o acts) as [w|] eqn:E;
    [|vm_compute in E; discriminate E].
  exists w. split; [reflexivity|].
  apply (C5_Start_enters_loop_once rev_conn_go no_metrics "db" "h:1" o acts w E).
  simpl. lia.
Defined.

(** ** C6 and C7: failed dials *)

Lemma wrap_int_small (z : Z) : - 2 ^ 63 <= z < 2 ^ 63 -> wrap_int z = z.
Proof. intros Hz. unfold wrap_int. rewrite Z.mod_small; lia. Qed.

Example wrap_int_max : wrap_int (2 ^ 63 - 1 + 1) = - 2 ^ 63.
Proof. reflexivity. Qed.

(** One failed dial and the expiry of its retry timer. *)
Lemma one_failure (r : revision) (err : error) (w : World (Options_of r)) :
  pc w = Dialing ->
  exists w', run (Start_of r) (step_of r) w [env (EvDialErr err); env EvTimer] = Some w' /\
    after_failures 1 w w' /\ attempt w' = wrap_int (attempt w + 1).
Proof.
  intros Hpc. unfold after_failures.
  destruct r; simpl in *;
    [unfold conn_go.step|unfold part_001.step|unfold part_000.step];
    rewrite Hpc; simpl; eexists; (split; [reflexivity|]);
    destruct w as [? ? ? ? ? ? ? ? [? [?|] [?|]] ? ? ? ?]; simpl;
    repeat split; try done; lia.
Qed.

Lemma failures_enabled (r : revision) (err : error) (k : nat) :
  forall w : World (Options_of r), pc w = Dialing ->
  exists w', run (Start_of r) (step_of r) w (failures err k) = Some w' /\
    after_failures k w w' /\
    (0 <= attempt w -> attempt w + Z.of_nat k < 2 ^ 63 ->
     attempt w' = attempt w + Z.of_nat k).
Proof.
  induction k as [|k IH]; intros w Hpc.
  - exists w. split; [done|]. unfold after_failures.
    repeat split; try done; lia.
  - destruct (one_failure r err w Hpc) as (w1 & Hr1 & Hf1 & Ha1).
    destruct (IH w1) as (w2 & Hr2 & Hf2 & Ha2); [apply Hf1|].
    exists w2. split; [|split].
    + change (failures err (S k))
        with ([env (EvDialErr err); env EvTimer] ++ failures err k)%list.
      rewrite run_app. by rewrite Hr1.
    + unfold after_failures in *.
      destruct Hf1 as (_ & ? & ? & ? & ? & ? & He1 & Hc1).
      destruct Hf2 as (? & ? & ? & ? & ? & ? & He2 & Hc2).
      repeat split; try congruence; lia.
    + intros H0 Hlt.
      assert (attempt w1 = attempt w + 1) as Ha.
      { rewrite Ha1. apply wrap_int_small. lia. }
      rewrite Ha2; lia.
Qed.

Lemma part_000_Start_returns_at_once : Start_returns_at_once rev_part_000.
Proof.
  intros m0 n a o acts w Hrun. by destruct (runs_inv_of _ _ _ _ _ _ _ Hrun) as (_ & _ & ?).
Qed.

Lemma part_001_Start_returns_at_once : Start_returns_at_once rev_part_001.
Proof.
  intros m0 n a o acts w Hrun. by destruct (runs_inv_of _ _ _ _ _ _ _ Hrun) as (_ & _ & ?).
Qed.

(** In conn.go the caller of Start stays inside it for as long as no dial
    succeeds and the context is not cancelled. *)
Lemma conn_go_Start_blocks acts : forall w w' : World conn_go.Options,
  inv_inline w -> pc w = Dialing \/ pc w = Backoff -> appCtx w = None ->
  no_dial_ok acts -> no_cancel acts ->
  run conn_go.Start conn_go.step w acts = Some w' ->
  (1 <= in_Start w')%nat /\ (pc w' = Dialing \/ pc w' = Backoff) /\ appCtx w' = None.
Proof.
  induction acts as [|act acts IH]; intros w w' Hw Hpc Hctx Hnd Hnc; simpl.
  - intros [= <-]. destruct Hw as (_ & _ & Hi).
    split; [|done]. destruct Hpc as [Hpc|Hpc]; by rewrite Hpc in Hi.
  - assert (no_dial_ok acts) as Hnd'.
    { intros h Hin. apply (Hnd h). by apply list_elem_of_further. }
    assert (no_cancel acts) as Hnc'.
    { intros e Hin. apply (Hnc e). by apply list_elem_of_further. }
    destruct act as [ctx|ev]; simpl.
    + apply IH; try done; [by apply conn_go_inv_Start|..];
        destruct Hw as ([Ho _ _ _ _] & Hd & _); unfold conn_go.Start, started in *;
        rewrite Hd; rewrite Hd in Ho;
        destruct Hpc as [Hpc|Hpc]; rewrite Hpc in *; simpl in *; rewrite Ho; simpl; auto.
    + destruct (conn_go.step w ev) as [w1|] eqn:E; [|done].
      assert ((pc w1 = Dialing \/ pc w1 = Backoff) /\ appCtx w1 = None) as [Hpc1 Hctx1].
      { unfold conn_go.step in E.
        destruct Hpc as [Hpc|Hpc]; rewrite Hpc, ?Hctx in E;
          destruct ev; simplify_eq/=; auto.
        - destruct (Hnc e). apply list_elem_of_here.
        - destruct (Hnd c). apply list_elem_of_here.
        - destruct (Hnc e). apply list_elem_of_here. }
      apply IH; try done. by eapply conn_go_inv_step.
Qed.

Example conn_go_Start_still_inside :
  (fun w => (pc w, in_Start w, done_ (once (self w)), attempt w))
    <$> runs rev_conn_go no_metrics "db" "localhost:5000" (@conn_go.DefaultOptions example_externals)
          (call_Start None :: failures (library_error "refused") 3)
  = Some (Dialing, 1%nat, false, 3).
Proof. reflexivity. Qed.

(** C6 (conn.go): Start of conn.go runs the loop in the calling goroutine
    ([c.once.Do(func() { c.loop(ctx) })], no [go]). With a context that is
    never cancelled and dials that all fail, after any number [k] of failed
    dials the caller is still inside Start and the Once is not done. *)
Theorem C6_conn_go_Start_does_not_return (m0 : Metrics) (n a : string) (o : conn_go.Options)
    (err : error) (k : nat) :
  exists w,
    runs rev_conn_go m0 n a o (call_Start None :: failures err k) = Some w /\
    pc w = Dialing /\ appCtx w = None /\
    in_Start w = 1%nat /\ done_ (once (self w)) = false.
Proof.
  unfold runs. simpl.
  destruct (failures_enabled rev_conn_go err k
              (conn_go.Start None (init_world m0 (new_Conn n a o))))
    as (w & Hrun & (Hpc & Hself & Hctx & Hin & _) & _); [reflexivity|].
  exists w. split; [exact Hrun|]. split; [exact Hpc|].
  split; [exact Hctx|]. split; [exact Hin|].
  exact (f_equal (fun c => done_ (once c)) Hself).
Qed.

Lemma conn_go_not_Start_returns_at_once : ~ Start_returns_at_once rev_conn_go.
Proof.
  intros Hc.
  specialize (Hc no_metrics "db" "h:1" (conn_go.mkOptions 0 (mkRetryer (fun _ => 0)) [])
                [call_Start None] _ eq_refl).
  discriminate Hc.
Qed.

Lemma on_dial_failure_holds (r : revision) : on_dial_failure r.
Proof.
  intros w err Hpc.
  destruct r; simpl in *;
    [unfold conn_go.step|unfold part_001.step|unfold part_000.step];
    rewrite Hpc; eexists; (split; [reflexivity|]); by destruct w.
Qed.

Lemma on_timer_holds (r : revision) : on_timer r.
Proof.
  intros w Hpc.
  destruct r; simpl in *;
    [unfold conn_go.step|unfold part_001.step|unfold part_000.step];
    rewrite Hpc; eexists; (split; [reflexivity|]); by destruct w.
Qed.

Lemma on_dial_success_holds (r : revision) : on_dial_success r.
Proof.
  intros w h Hpc.
  destruct r; simpl in *;
    [unfold conn_go.step|unfold part_001.step|unfold part_000.step];
    rewrite Hpc; eexists; (split; [reflexivity|]); by destruct w.
Qed.

(** After a successful dial no revision dials again: the loop serves, or
    has returned. *)
Lemma no_dial_after_success (r : revision) more :
  forall (w w' : World (Options_of r)),
  inv_of r w -> pc w = Serving \/ pc w = Exited ->
  run (Start_of r) (step_of r) w more = Some w' ->
  pc w' = Serving \/ pc w' = Exited.
Proof.
  induction more as [|act more IH]; intros w w' Hw Hpc; simpl.
  - by intros [= <-].
  - destruct act as [ctx|ev]; simpl.
    + apply IH; [by apply inv_of_Start|].
      destruct (Start_again r w ctx Hw) as [Hs _].
      { destruct Hpc as [Hp|Hp]; by rewrite Hp. }
      apply (f_equal pc) in Hs. simpl in Hs. by rewrite Hs.
    + destruct (step_of r w ev) as [w1|] eqn:E; [|done].
      apply IH; [by eapply inv_of_step|].
      destruct r; simpl in *;
        [unfold conn_go.step in E|unfold part_001.step in E|unfold part_000.step in E];
        destruct Hpc as [Hpc|Hpc]; rewrite Hpc in E; destruct ev; simplify_eq/=; auto;
        try (destruct (ctx_Done (appCtx w)); simplify_eq/=; auto);
        try (destruct (ctx_Done (dialCtx w)); simplify_eq/=; auto).
Qed.

Example part_000_success_after_failure :
  (fun w => (pc w, attempt w, metric_grpc_is_connected (metrics w),
             metric_grpc_conns (metrics w), metric_grpc_conns_err (metrics w), watchers w))
    <$> runs rev_part_000 no_metrics "db" "localhost:5000" (@part_000.DefaultOptions example_externals)
          [call_Start None; env (EvDialErr (library_error "refused")); env EvTimer;
           env (EvDialOk 7%nat)]
  = Some (Serving, 1, None, Some 2%nat, Some 1%nat, [7%nat]).
Proof. reflexivity. Qed.

Example conn_go_success_after_failure :
  (fun w => (pc w, attempt w, metric_grpc_is_connected (metrics w),
             metric_grpc_conns (metrics w), metric_grpc_conns_err (metrics w), watchers w))
    <$> runs rev_conn_go no_metrics "db" "localhost:5000" (@conn_go.DefaultOptions example_externals)
          [call_Start None; env (EvDialErr (library_error "refused")); env EvTimer;
           env (EvDialOk 7%nat)]
  = Some (Serving, 0, Some 1, Some 2%nat, Some 1%nat, []).
Proof. reflexivity. Qed.

(** C7, as the specification words its success clause, fails on part_000:
    there a successful dial that follows a failed one leaves [attempt] at 1
    and never touches the is-connected gauge. *)
Lemma C7_part_000_success_neither_resets_nor_marks :
  ~ (on_dial_failure rev_part_000 /\ on_timer rev_part_000 /\
     success_resets_and_marks rev_part_000).
Proof.
  intros (_ & _ & Hc).
  destruct (runs rev_part_000 no_metrics "db" "h:1" (part_000.mkOptions (mkRetryer (fun _ => 0)) [])
              [call_Start None; env (EvDialErr (library_error "refused")); env EvTimer])
    as [w|] eqn:E; [|vm_compute in E; discriminate E].
  destruct (step_of rev_part_000 w (EvDialOk 1%nat)) as [w'|] eqn:E';
    [|vm_compute in E; injection E as <-; vm_compute in E'; discriminate E'].
  destruct (Hc _ _ _ _ _ w 1%nat w' E E') as [Ha _].
  vm_compute in E. injection E as <-.
  vm_compute in E'. injection E' as <-.
  discriminate Ha.
Qed.

Lemma dial_ok_enabled (r : revision) (w : World (Options_of r)) h w' :
  step_of r w (EvDialOk h) = Some w' ->
  pc w = Dialing /\ pc w' = Serving /\ conn w' = Some h.
Proof.
  intros Hs.
  destruct r; simpl in *;
    [unfold conn_go.step in Hs|unfold part_001.step in Hs|unfold part_000.step in Hs];
    destruct (pc w); try discriminate Hs; injection Hs as <-; by destruct w.
Qed.

Lemma no_redial_holds (r : revision) : no_redial r.
Proof.
  intros m0 n a o acts w h w1 more w2 Hrun Hstep Hmore.
  pose proof (dial_ok_enabled r w h w1 Hstep) as (_ & Hpc1 & _).
  eapply (no_dial_after_success r more w1); [|by left|exact Hmore].
  eapply inv_of_step; [|exact Hstep]. by eapply runs_inv_of.
Qed.

(** The world right after the first call of Start: the labels' counters
    exist, and the first dial is counted. *)
Lemma Start_fresh (r : revision) (m0 : Metrics) (n a : string) (o : Options_of r)
    (ctx : Context) :
  let w := Start_of r ctx (init_world m0 (new_Conn n a o)) in
  pc w = Dialing /\ attempt w = 0 /\ options (self w) = o /\ appCtx w = ctx /\
  metric_grpc_conns (metrics w) = Some (S (default 0%nat (metric_grpc_conns m0))) /\
  metric_grpc_conns_err (metrics w) = Some (default 0%nat (metric_grpc_conns_err m0)).
Proof. by destruct r. Qed.

(** C7 (amended): in every revision a failed dial increments the
    attempts-error counter, starts a timer of RetryConnect.Next(attempt)
    and leaves attempt as it is; the expiry of the timer adds one to
    attempt (wrapping as Go's int does) and the loop dials again, counting
    the attempt; so the wait after the k-th failure in a row since Start
    uses Next(k - 1), with both counters k above what the labels held when
    the Conn was built (the metric vectors are shared by name and
    address). On a successful dial the loop starts serving the handle and
    never dials again; conn.go then sets attempt to 0 and the is-connected
    gauge to 1, part_001 sets the gauge to 1 and leaves attempt, part_000
    leaves both as they are and starts the connectivity state watcher for
    the handle. *)
Theorem C7_dial_bookkeeping (r : revision) (m0 : Metrics) (n a : string) (o : Options_of r)
    (ctx : Context) (err : error) (k : nat)
    (Hk : (1 <= k)%nat) (Hmax : Z.of_nat k <= 2 ^ 63) :
  on_dial_failure r /\ on_timer r /\ on_dial_success r /\ no_redial r /\
  exists w, kth_failure r m0 n a o ctx err k = Some w /\
    pc w = Backoff /\ attempt w = Z.of_nat k - 1 /\
    timer w = Some (Next (RetryConnect_of r o) (Z.of_nat k - 1)) /\
    metric_grpc_conns_err (metrics w)
      = Some (default 0%nat (metric_grpc_conns_err m0) + k)%nat /\
    metric_grpc_conns (metrics w)
      = Some (default 0%nat (metric_grpc_conns m0) + k)%nat.
Proof.
  split; [apply on_dial_failure_holds|].
  split; [apply on_timer_holds|].
  split; [apply on_dial_success_holds|].
  split; [apply no_redial_holds|].
  unfold kth_failure, runs. cbn [run exec].
  destruct (Start_fresh r m0 n a o ctx) as (Hpc0 & Ha0 & Ho0 & _ & Hc0 & He0).
  set (w0 := Start_of r ctx (init_world m0 (new_Conn n a o))) in *.
  destruct (failures_enabled r err (k - 1) w0 Hpc0)
    as (w1 & Hrun1 & (Hpc1 & Hself1 & _ & _ & _ & _ & He1 & Hc1) & Ha1).
  destruct (on_dial_failure_holds r w1 err Hpc1)
    as (w2 & Hstep & Hpc2 & He2 & Hc2 & Ht2 & Ha2).
  exists w2. rewrite run_app, Hrun1. cbn [run exec]. rewrite Hstep.
  rewrite Ha0 in Ha1. rewrite He0 in He1. rewrite Hc0 in Hc1. simpl in He1, Hc1.
  assert (attempt w1 = Z.of_nat k - 1) as Hak by (rewrite Ha1; lia).
  split; [done|]. split; [done|]. split; [by rewrite Ha2|].
  split; [by rewrite Ht2, Hself1, Ho0, Hak|].
  split.
  - rewrite He2, He1. f_equal. lia.
  - rewrite Hc2. destruct (metric_grpc_conns (metrics w1)) as [c|]; simpl in Hc1.
    + f_equal. lia.
    + lia.
Qed.

Lemma C7_dial_bookkeeping_witness :
  let o := part_000.mkOptions (mkRetryer (fun i => (i + 1) * Second)) [] in
  let used := mkMetrics (Some 1) (Some 5%nat) (Some 4%nat) in
  exists w,
    kth_failure rev_part_000 used "db" "h:1" o None (library_error "refused") 3 = Some w /\
    timer w = Some (3 * Second) /\
    metric_grpc_conns_err (metrics w) = Some 7%nat.
Proof.
  intros o used.
  destruct (C7_dial_bookkeeping rev_part_000 used "db" "h:1" o None
              (library_error "refused") 3)
    as (_ & _ & _ & _ & w & Hw & _ & _ & Ht & He & _).
  - lia.
  - lia.
  - exists w. split; [exact Hw|]. split; [exact Ht|exact He].
Defined.

(** ** C9: the connectivity state watcher *)

Section WatcherFacts.
Import part_000.

Lemma watch_step_returned (rs : list wait_result) : forall k,
  returned k = true -> fold_left watch_step rs k = k.
Proof.
  induction rs as [|r rs IH]; intros k Hk; simpl; [done|].
  unfold watch_step at 2. rewrite Hk. by apply IH.
Qed.

Lemma watch_transitions (ss : list connectivity_State) : forall k,
  returned k = false ->
  fold_left watch_step (wait_true <$> ss) k
  = match last ss with
    | Some s => mkWatcher s (float64_of_State s)
                  (reverse (float64_of_State <$> ss) ++ Set_calls k) false
    | None => k
    end.
Proof.
  induction ss as [|s ss IH]; intros k Hk; simpl; [done|].
  unfold watch_step at 2. rewrite Hk.
  rewrite IH by done. rewrite last_cons.
  destruct (last ss) as [s'|] eqn:El; simpl.
  - by rewrite reverse_cons, <- app_assoc.
  - apply last_None in El as ->. unfold m_Set. by rewrite Hk.
Qed.

Lemma watch_returned_iff (rs : list wait_result) : forall k,
  returned (fold_left watch_step rs k) = true <->
  returned k = true \/ wait_false ∈ rs.
Proof.
  induction rs as [|r rs IH]; intros k; simpl.
  - split; [auto|]. intros [?|Hin]; [done|]. by apply elem_of_nil in Hin.
  - rewrite IH. unfold watch_step.
    destruct (returned k) eqn:Hk; [split; auto|].
    destruct r as [now|]; simpl; rewrite ?Hk.
    + split.
      * intros [?|?]; [done|]. right. by apply list_elem_of_further.
      * intros [?|[?|?]%elem_of_cons]; try done. by right.
    + split; [|by left]. intros _. right. apply list_elem_of_here.
Qed.
End WatcherFacts.

Example watcher_sequence :
  part_000.watchConnectionState Idle
    [part_000.wait_true Connecting; part_000.wait_true Ready;
     part_000.wait_true TransientFailure; part_000.wait_true Ready;
     part_000.wait_false; part_000.wait_true Shutdown]
  = part_000.mkWatcher Ready 2 [2; 3; 2; 1; 0] true.
Proof. reflexivity. Qed.

(** C9: started on a handle in state [s0], the watcher sets the
    connection-state gauge to the number of [s0]; then each time
    WaitForStateChange returns true it sets the gauge to the number of the
    state GetState reports, in the order of the transitions [ss]; it has
    not returned as long as every wait returned true, and it returns at the
    first wait that returns false, leaving the gauge at the last state seen
    and waiting no more. So it has returned exactly when some wait returned
    false. *)
Theorem C9_watcher_mirrors_until_wait_false (s0 : connectivity_State)
    (ss : list connectivity_State) :
  let seen := last_state s0 ss in
  let sets := reverse (float64_of_State <$> s0 :: ss) in
  part_000.watchConnectionState s0 (part_000.wait_true <$> ss)
    = part_000.mkWatcher seen (float64_of_State seen) sets false /\
  (forall rest,
     part_000.watchConnectionState s0
       ((part_000.wait_true <$> ss) ++ part_000.wait_false :: rest)
     = part_000.mkWatcher seen (float64_of_State seen) sets true) /\
  (forall rs,
     part_000.returned (part_000.watchConnectionState s0 rs) = true
     <-> part_000.wait_false ∈ rs).
Proof.
  intros seen sets.
  assert (part_000.watchConnectionState s0 (part_000.wait_true <$> ss)
          = part_000.mkWatcher seen (float64_of_State seen) sets false) as Htrue.
  { unfold part_000.watchConnectionState, seen, sets, last_state.
    rewrite watch_transitions by done.
    rewrite fmap_cons, reverse_cons.
    destruct (last ss) eqn:El; simpl; [done|]. by apply last_None in El as ->. }
  split; [exact Htrue|]. split.
  - intros rest. unfold part_000.watchConnectionState in *.
    rewrite fold_left_app, Htrue. simpl. by apply watch_step_returned.
  - intros rs. unfold part_000.watchConnectionState.
    rewrite watch_returned_iff. simpl. split; [by intros [?|?]|by right].
Qed.

Lemma C9_watcher_mirrors_until_wait_false_witness :
  part_000.watchConnectionState Idle
    [part_000.wait_true Connecting; part_000.wait_true Ready; part_000.wait_false]
  = part_000.mkWatcher Ready 2 [2; 1; 0] true.
Proof.
  exact (proj1 (proj2 (C9_watcher_mirrors_until_wait_false Idle [Connecting; Ready])) []).
Defined.


(** * Further properties of the package *)

(** ** The channel follows the loop *)

(** Along every run from a fresh Conn the channel is closed exactly when
    the loop has returned and carries an offer exactly while the loop
    serves; so GetConnection yields ErrShutdown only after the loop has
    returned, and a handle only while the loop serves that handle. *)
Theorem channel_follows_loop (r : revision) (m0 : Metrics) (n a : string) (o : Options_of r)
    (acts : list action) (w : World (Options_of r))
    (Hrun : runs r m0 n a o acts = Some w) :
  (closed (requests (self w)) = true <-> pc w = Exited) /\
  (is_Some (offered (requests (self w))) <-> pc w = Serving) /\
  (forall ctx pick, GetConnection (self w) ctx pick = Some (nil, Some ErrShutdown) ->
     pc w = Exited) /\
  (forall ctx pick h, GetConnection (self w) ctx pick = Some (Some h, None) ->
     pc w = Serving /\ conn w = Some h).
Proof.
  pose proof (inv_of_inv r w (runs_inv_of r m0 n a o acts w Hrun)) as [_ _ Hch Hcn _].
  assert ((closed (requests (self w)) = true <-> pc w = Exited) /\
          (is_Some (offered (requests (self w))) <-> pc w = Serving)) as [Hcl Hof].
  { rewrite Hch. destruct (pc w) eqn:Epc; simpl; repeat split; try done;
      try (by intros [? ?]); intros _; by apply Hcn. }
  split; [exact Hcl|]. split; [exact Hof|]. split.
  - intros ctx pick Hg.
    destruct pick.
    + apply GetConnection_ctx_Done in Hg as (e & _ & [=]).
    + apply GetConnection_recv in Hg as [(h & _ & _ & [=])|[Hc _]]. by apply Hcl.
  - intros ctx pick h Hg.
    destruct pick.
    + apply GetConnection_ctx_Done in Hg as (e & _ & [=]).
    + apply GetConnection_recv in Hg as [(h' & _ & Ho & [= ->])|[_ [=]]].
      assert (pc w = Serving) as Hpc by (apply Hof; rewrite Ho; eauto).
      split; [done|]. rewrite Hch, Hpc in Ho. done.
Qed.

(** ** The frame, the handle and the contexts along a run *)

Ltac full_inv_cases w :=
  destruct w as [[? ? ? [? ?] [? ?]] [] ? ? ? ? ? ? [? ? ?] ? ? ? ?];
  unfold full_inv, inv_of, inv_inline, inv_spawned, frame_inv, closed_and_watched,
    ctx_inv, started, ctx_Done in *; simpl in *.

Ltac full_inv_solve :=
  repeat match goal with
         | H : _ /\ _ |- _ => destruct H
         | H : exists _, _ |- _ => destruct H
         | H : inv _ |- _ => destruct H as [?Hio ?Hic ?Hich ?Hicn ?Hid]; simpl in *
         end;
  simplify_eq/=;
  repeat match goal with
         | |- _ /\ _ => split
         | |- inv _ => split; simpl
         | |- exists _, _ => eexists
         | |- _ -> _ => intros ?
         end;
  simpl in *; try done; try lia; eauto;
  try (apply elem_of_cons; auto);
  try (apply elem_of_cons; right; apply elem_of_cons; auto).

Lemma full_inv_step (r : revision) (w : World (Options_of r)) ev w' :
  full_inv r w -> step_of r w ev = Some w' -> full_inv r w'.
Proof.
  intros Hw Hs.
  destruct r; simpl in *;
    [unfold conn_go.step in Hs|unfold part_001.step in Hs|unfold part_000.step in Hs];
    full_inv_cases w; destruct ev; simpl in *; try discriminate Hs;
    repeat match type of Hs with
           | context [bool_decide ?P] => destruct (bool_decide_reflect P)
           end; simpl in *; try discriminate Hs;
    injection Hs as <-;
    unfold conn_go.loop_return, return_ in *; simpl in *.
  all: full_inv_solve.
  by destruct dialCtx0.
Qed.

Lemma full_inv_Start (r : revision) (w : World (Options_of r)) ctx :
  full_inv r w -> full_inv r (Start_of r ctx w).
Proof.
  intros Hw.
  destruct r; simpl in *;
    [unfold conn_go.Start|unfold part_001.Start|unfold part_000.Start];
    full_inv_cases w;
    repeat match goal with
           | |- context [if ?b then _ else _] => destruct b eqn:?
           end; simpl in *.
  all: full_inv_solve.
Qed.

Lemma full_inv_init (r : revision) (m0 : Metrics) (n a : string) (o : Options_of r) :
  full_inv r (init_world m0 (new_Conn n a o)).
Proof.
  destruct r; unfold full_inv; simpl;
    (split; [first [apply inv_inline_init|apply inv_spawned_init]|done]).
Qed.

Lemma runs_full_inv (r : revision) m0 n a o acts w :
  runs r m0 n a o acts = Some w -> full_inv r w.
Proof.
  apply (run_preserves (Start_of r) (step_of r) (full_inv r)).
  - intros ctx w0. apply full_inv_Start.
  - intros w0 ev w1. apply full_inv_step.
  - apply full_inv_init.
Qed.

Lemma channel_follows_loop_witness :
  let o := part_000.mkOptions (mkRetryer (fun _ => Second)) [] in
  let acts := [call_Start None; env (EvDialOk 7%nat); env EvSend] in
  exists w, runs rev_part_000 no_metrics "db" "h:1" o acts = Some w /\
    (closed (requests (self w)) = true <-> pc w = Exited) /\
    (is_Some (offered (requests (self w))) <-> pc w = Serving).
Proof.
  intros o acts.
  destruct (runs rev_part_000 no_metrics "db" "h:1" o acts) as [w|] eqn:E;
    [|vm_compute in E; discriminate E].
  exists w. split; [reflexivity|].
  destruct (channel_follows_loop rev_part_000 no_metrics "db" "h:1" o acts w E) as (H1 & H2 & _).
  split; [exact H1|exact H2].
Defined.

(** ** A Conn that was never started *)

Lemma unstarted_run (r : revision) acts : forall (w w' : World (Options_of r)),
  pc w = NotStarted -> Start_calls acts = 0%nat ->
  run (Start_of r) (step_of r) w acts = Some w' -> pc w' = NotStarted.
Proof.
  induction acts as [|act acts IH]; intros w w' Hpc H0; simpl.
  - by intros [= <-].
  - destruct act as [ctx|ev]; simpl in *; [lia|].
    destruct (step_of r w ev) as [w1|] eqn:E; [|done].
    apply IH; [|done].
    destruct r; simpl in *;
      [unfold conn_go.step in E|unfold part_001.step in E|unfold part_000.step in E];
      rewrite Hpc in E; destruct ev; simplify_eq/=; by destruct w.
Qed.

(** As long as Start has not been called, the loop does not exist: a call
    of GetConnection blocks while the caller's own context is live (no
    case is ready); once that context is done the Done case is ready and
    the call returns nil and that context's error; the receive case is
    never ready, so the call never gets a handle nor ErrShutdown. *)
Theorem unstarted_GetConnection_waits_for_ctx (r : revision) (m0 : Metrics) (n a : string)
    (o : Options_of r) (acts : list action) (w : World (Options_of r))
    (Hrun : runs r m0 n a o acts = Some w)
    (Hnone : Start_calls acts = 0%nat) :
  pc w = NotStarted /\
  (forall pick, GetConnection (self w) None pick = None) /\
  (forall e, GetConnection (self w) (Some e) case_ctx_Done
             = Some (nil, Some (context_error e))) /\
  (forall ctx, GetConnection (self w) ctx case_recv = None) /\
  (forall ctx pick res, GetConnection (self w) ctx pick = Some res ->
     exists e, ctx = Some e /\ res = (nil, Some (context_error e))).
Proof.
  assert (pc w = NotStarted) as Hpc.
  { by eapply (unstarted_run r acts); [|exact Hnone|exact Hrun]. }
  pose proof (inv_of_inv r w (runs_inv_of r m0 n a o acts w Hrun)) as [_ _ Hch _ _].
  rewrite Hpc in Hch. split; [exact Hpc|]. split; [|split; [|split]].
  - apply GetConnection_blocks. by rewrite Hch.
  - done.
  - intros ctx. unfold GetConnection, recv. by rewrite Hch.
  - intros ctx [|] res Hg.
    + by apply GetConnection_ctx_Done in Hg.
    + apply GetConnection_recv in Hg as [(h & _ & Ho & _)|[Hc _]];
        rewrite Hch in *; done.
Qed.

Lemma unstarted_GetConnection_waits_for_ctx_witness :
  let o := conn_go.mkOptions (15 * Second) (mkRetryer (fun _ => Second)) [] in
  exists w, runs rev_conn_go no_metrics "db" "h:1" o [env (EvCancel Canceled)] = Some w /\
    pc w = NotStarted /\
    (forall pick, GetConnection (self w) None pick = None) /\
    GetConnection (self w) (Some DeadlineExceeded) case_ctx_Done
    = Some (nil, Some (context_error DeadlineExceeded)).
Proof.
  intros o.
  destruct (runs rev_conn_go no_metrics "db" "h:1" o [env (EvCancel Canceled)]) as [w|] eqn:E;
    [|vm_compute in E; discriminate E].
  exists w. split; [reflexivity|].
  destruct (unstarted_GetConnection_waits_for_ctx rev_conn_go no_metrics "db" "h:1" o
              [env (EvCancel Canceled)] w E eq_refl) as (H1 & H2 & H3 & _).
  split; [exact H1|]. split; [exact H2|apply H3].
Defined.

(** ** Leaving the loop *)

Lemma deferred_appCtx {Options : Type} ds (w : World Options) :
  appCtx (fold_left run_deferred ds w) = appCtx w.
Proof. by destruct (fold_run_deferred ds w) as (ch & cc & -> & _). Qed.

Lemma step_appCtx (r : revision) (w : World (Options_of r)) ev w' :
  step_of r w ev = Some w' -> appCtx w' = appCtx w \/ exists e, ev = EvCancel e.
Proof.
  intros Hs.
  destruct r; simpl in *;
    [unfold conn_go.step in Hs|unfold part_001.step in Hs|unfold part_000.step in Hs];
    destruct (pc w), ev; try discriminate Hs; eauto;
    try (destruct (ctx_Done (appCtx w)); [|discriminate Hs]);
    try (destruct (ctx_Done (dialCtx w)); [|discriminate Hs]);
    injection Hs as <-; left; unfold conn_go.loop_return, return_; simpl;
    rewrite ?deferred_appCtx; done.
Qed.

Lemma Start_appCtx (r : revision) (w : World (Options_of r)) ctx :
  appCtx (Start_of r ctx w) = appCtx w \/ appCtx (Start_of r ctx w) = ctx.
Proof.
  destruct r; simpl;
    [unfold conn_go.Start|unfold part_001.Start|unfold part_000.Start];
    repeat match goal with |- context [if ?b then _ else _] => destruct b end;
    simpl; auto.
Qed.

(** A context that is done at the end of a run was done at its start, or
    was cancelled on the way, or was given done to Start. *)
Lemma appCtx_origin (r : revision) acts : forall (w w' : World (Options_of r)),
  run (Start_of r) (step_of r) w acts = Some w' -> is_Some (appCtx w') ->
  is_Some (appCtx w) \/ (exists e, env (EvCancel e) ∈ acts) \/
  (exists e, call_Start (Some e) ∈ acts).
Proof.
  induction acts as [|act acts IH]; intros w w'; simpl.
  - intros [= <-]. auto.
  - destruct act as [ctx|ev]; simpl.
    + intros Hrun Hd. destruct (IH _ _ Hrun Hd) as [H1|[(e & He)|(e & He)]].
      * destruct (Start_appCtx r w ctx) as [Heq|Heq]; rewrite Heq in H1; [auto|].
        destruct H1 as [e ->]. right; right. exists e. apply list_elem_of_here.
      * right; left. exists e. by apply list_elem_of_further.
      * right; right. exists e. by apply list_elem_of_further.
    + destruct (step_of r w ev) as [w1|] eqn:E; [|done].
      intros Hrun Hd. destruct (IH _ _ Hrun Hd) as [H1|[(e & He)|(e & He)]].
      * destruct (step_appCtx r w ev w1 E) as [Heq|(e & ->)].
        -- rewrite Heq in H1. auto.
        -- right; left. exists e. apply list_elem_of_here.
      * right; left. exists e. by apply list_elem_of_further.
      * right; right. exists e. by apply list_elem_of_further.
Qed.

(** In part_001 and part_000 the loop returns, from the retry wait as from
    the serve phase, only when the context given to Start is done: in a run
    that ends with the loop returned, that context was cancelled, or Start
    was given a context that was done already. *)
Theorem loop_returns_only_when_cancelled (r : revision) (m0 : Metrics) (n a : string)
    (o : Options_of r) (acts : list action) (w : World (Options_of r))
    (Hr : r <> rev_conn_go)
    (Hrun : runs r m0 n a o acts = Some w)
    (Hpc : pc w = Exited) :
  is_Some (appCtx w) /\
  ((exists e, env (EvCancel e) ∈ acts) \/ (exists e, call_Start (Some e) ∈ acts)).
Proof.
  assert (is_Some (appCtx w)) as Hd.
  { destruct (runs_full_inv r m0 n a o acts w Hrun) as (_ & _ & _ & Hc).
    unfold ctx_inv in Hc. destruct r; [done|..]; by apply Hc. }
  split; [exact Hd|].
  destruct (appCtx_origin r acts _ _ Hrun Hd) as [[e [=]]|?]; done.
Qed.

Lemma loop_returns_only_when_cancelled_witness :
  let o := part_001.mkOptions (mkRetryer (fun _ => Second)) [] in
  let acts := [call_Start None; env (EvDialErr (library_error "refused"));
               env (EvCancel DeadlineExceeded); env EvDone] in
  exists w, runs rev_part_001 no_metrics "db" "h:1" o acts = Some w /\ pc w = Exited /\
    is_Some (appCtx w).
Proof.
  intros o acts.
  destruct (runs rev_part_001 no_metrics "db" "h:1" o acts) as [w|] eqn:E;
    [|vm_compute in E; discriminate E].
  assert (pc w = Exited) as Hpc.
  { vm_compute in E. injection E as <-. reflexivity. }
  exists w. split; [reflexivity|]. split; [exact Hpc|].
  apply (loop_returns_only_when_cancelled rev_part_001 no_metrics "db" "h:1" o acts w);
    [discriminate|exact E|exact Hpc].
Defined.

(** Once the context given to Start is done, a loop that waits, in the
    retry select or in the serve select, can take the Done case: it then
    returns and leaves the channel closed. *)
Theorem cancelled_loop_can_return (r : revision) (m0 : Metrics) (n a : string)
    (o : Options_of r) (acts : list action) (w : World (Options_of r))
    (Hrun : runs r m0 n a o acts = Some w)
    (Hctx : is_Some (appCtx w))
    (Hpc : pc w = Backoff \/ pc w = Serving) :
  exists w', step_of r w EvDone = Some w' /\
    pc w' = Exited /\ requests (self w') = mkChan true None.
Proof.
  pose proof (runs_full_inv r m0 n a o acts w Hrun) as Hw.
  destruct Hctx as [e He].
  destruct r; simpl in *;
    [unfold conn_go.step|unfold part_001.step|unfold part_000.step];
    full_inv_cases w; destruct Hpc as [Hpc|Hpc]; try discriminate Hpc;
    repeat match goal with
           | H : _ /\ _ |- _ => destruct H
           | H : exists _, _ |- _ => destruct H
           end; simplify_eq/=;
    try match goal with
        | H : Serving = Serving -> is_Some ?c |- _ => destruct (H eq_refl) as [? ->]
        end;
    simpl; eexists; (split; [reflexivity|]); done.
Qed.

Lemma cancelled_loop_can_return_witness :
  let o := part_000.mkOptions (mkRetryer (fun _ => Second)) [] in
  let acts := [call_Start None; env (EvDialOk 7%nat); env (EvCancel Canceled)] in
  exists w w', runs rev_part_000 no_metrics "db" "h:1" o acts = Some w /\
    step_of rev_part_000 w EvDone = Some w' /\ pc w' = Exited.
Proof.
  intros o acts.
  destruct (runs rev_part_000 no_metrics "db" "h:1" o acts) as [w|] eqn:E;
    [|vm_compute in E; discriminate E].
  destruct (cancelled_loop_can_return rev_part_000 no_metrics "db" "h:1" o acts w E)
    as (w' & Hs & Hpc & _).
  - vm_compute in E. injection E as <-. by eexists.
  - right. vm_compute in E. injection E as <-. reflexivity.
  - exists w, w'. split; [reflexivity|]. split; [exact Hs|exact Hpc].
Defined.

(** ** One dial succeeds, at most *)


Lemma no_dial_ok_after_success (r : revision) acts : forall (w w' : World (Options_of r)),
  inv_of r w -> pc w = Serving \/ pc w = Exited ->
  run (Start_of r) (step_of r) w acts = Some w' ->
  count_events is_DialOk acts = 0%nat.
Proof.
  induction acts as [|act acts IH]; intros w w' Hw Hpc; simpl; [done|].
  destruct act as [ctx|ev]; simpl.
  - intros Hrun. eapply (IH (Start_of r ctx w)); [by apply inv_of_Start| |exact Hrun].
    apply (no_dial_after_success r [call_Start ctx] w); [done|done|reflexivity].
  - destruct (step_of r w ev) as [w1|] eqn:E; [|done]. intros Hrun.
    assert (is_DialOk ev = false) as ->.
    { destruct ev; try done. apply dial_ok_enabled in E as (Hd & _).
      destruct Hpc as [Hpc|Hpc]; congruence. }
    eapply (IH w1); [by eapply inv_of_step| |exact Hrun].
    apply (no_dial_after_success r [env ev] w); [done|done|].
    simpl. by rewrite E.
Qed.

Lemma at_most_one_dial_ok (r : revision) acts : forall (w w' : World (Options_of r)),
  inv_of r w -> run (Start_of r) (step_of r) w acts = Some w' ->
  (count_events is_DialOk acts <= 1)%nat.
Proof.
  induction acts as [|act acts IH]; intros w w' Hw; simpl; [lia|].
  destruct act as [ctx|ev]; simpl.
  - apply IH. by apply inv_of_Start.
  - destruct (step_of r w ev) as [w1|] eqn:E; [|done]. intros Hrun.
    pose proof (inv_of_step r w ev w1 Hw E) as Hw1.
    destruct ev; simpl; try by eapply (IH w1).
    apply dial_ok_enabled in E as (_ & Hpc1 & _).
    rewrite (no_dial_ok_after_success r acts w1 w'); auto.
Qed.

Lemma runs_at_most_one_dial_ok (r : revision) m0 n a o acts w :
  runs r m0 n a o acts = Some w -> (count_events is_DialOk acts <= 1)%nat.
Proof.
  apply (at_most_one_dial_ok r acts).
  destruct r; simpl; [apply inv_inline_init|apply inv_spawned_init..].
Qed.

(** No revision ever redials: in every run from a fresh Conn at most one
    dial succeeds, and once one has, the loop only serves or has returned,
    whatever the transport does to the handle afterwards. *)
Theorem at_most_one_successful_dial (r : revision) (m0 : Metrics) (n a : string)
    (o : Options_of r) (acts : list action) (w : World (Options_of r))
    (Hrun : runs r m0 n a o acts = Some w) :
  (count_events is_DialOk acts <= 1)%nat /\
  (count_events is_DialOk acts = 1%nat -> pc w = Serving \/ pc w = Exited).
Proof.
  split; [by eapply runs_at_most_one_dial_ok|].
  - revert Hrun. unfold runs.
    assert (inv_of r (init_world m0 (new_Conn n a o))) as Hw0
      by (destruct r; simpl; [apply inv_inline_init|apply inv_spawned_init..]).
    revert Hw0. generalize (init_world m0 (new_Conn n a o)).
    induction acts as [|act acts IH]; intros w0 Hw0; simpl; [done|].
    destruct act as [ctx|ev]; simpl.
    + apply IH. by apply inv_of_Start.
    + destruct (step_of r w0 ev) as [w1|] eqn:E; [|done]. intros Hrun Hone.
      pose proof (inv_of_step r w0 ev w1 Hw0 E) as Hw1.
      destruct ev; simpl in Hone; try by eapply (IH w1).
      apply dial_ok_enabled in E as (_ & Hpc1 & _).
      eapply (no_dial_after_success r acts w1); eauto.
Qed.

Lemma at_most_one_successful_dial_witness :
  let o := part_000.mkOptions (mkRetryer (fun _ => Second)) [] in
  let acts := [call_Start None; env (EvDialErr (library_error "refused")); env EvTimer;
               env (EvDialOk 7%nat); env EvSend] in
  exists w, runs rev_part_000 no_metrics "db" "h:1" o acts = Some w /\
    (count_events is_DialOk acts <= 1)%nat.
Proof.
  intros o acts.
  destruct (runs rev_part_000 no_metrics "db" "h:1" o acts) as [w|] eqn:E;
    [|vm_compute in E; discriminate E].
  exists w. split; [reflexivity|].
  apply (at_most_one_successful_dial rev_part_000 no_metrics "db" "h:1" o acts w E).
Defined.

Example part_000_second_dial_not_possible :
  runs rev_part_000 no_metrics "db" "h:1" (part_000.mkOptions (mkRetryer (fun _ => Second)) [])
    [call_Start None; env (EvDialOk 7%nat); env (EvDialOk 8%nat)] = None.
Proof. reflexivity. Qed.

(** ** Where a handle comes from *)

Lemma conn_origin (r : revision) acts : forall (w w' : World (Options_of r)) h,
  run (Start_of r) (step_of r) w acts = Some w' -> conn w' = Some h ->
  conn w = Some h \/ env (EvDialOk h) ∈ acts.
Proof.
  induction acts as [|act acts IH]; intros w w' h; simpl.
  - intros [= <-]. auto.
  - destruct act as [ctx|ev]; simpl.
    + intros Hrun Hc. destruct (IH _ _ _ Hrun Hc) as [H1|H1].
      * left. rewrite <- H1.
        destruct r; simpl;
          [unfold conn_go.Start|unfold part_001.Start|unfold part_000.Start];
          repeat match goal with |- context [if ?b then _ else _] => destruct b end;
          done.
      * right. by apply list_elem_of_further.
    + destruct (step_of r w ev) as [w1|] eqn:E; [|done].
      intros Hrun Hc. destruct (IH _ _ _ Hrun Hc) as [H1|H1].
      * destruct ev;
          try (left; rewrite <- H1;
               destruct r; simpl in *;
               [unfold conn_go.step in E|unfold part_001.step in E
               |unfold part_000.step in E];
               destruct (pc w); try discriminate E;
               try (destruct (ctx_Done (appCtx w)); [|discriminate E]);
               try (destruct (ctx_Done (dialCtx w)); [|discriminate E]);
               injection E as <-; unfold conn_go.loop_return, return_; simpl;
               try (by destruct (fold_run_deferred (defers w) w) as (ch & cc & -> & _));
               done).
        apply dial_ok_enabled in E as (_ & _ & Hc1). rewrite Hc1 in H1.
        injection H1 as ->. right. apply list_elem_of_here.
      * right. by apply list_elem_of_further.
Qed.

(** Every handle GetConnection hands out is the handle a dial of this run
    returned; with at most one successful dial per run, all callers of one
    Conn get the same handle. *)
Theorem handle_comes_from_the_dial (r : revision) (m0 : Metrics) (n a : string)
    (o : Options_of r) (acts : list action) (w : World (Options_of r))
    (ctx : Context) (pick : select_case) (h : ClientConn)
    (Hrun : runs r m0 n a o acts = Some w)
    (Hget : GetConnection (self w) ctx pick = Some (Some h, None)) :
  env (EvDialOk h) ∈ acts /\ count_events is_DialOk acts = 1%nat.
Proof.
  assert (conn w = Some h) as Hc.
  { pose proof (inv_of_inv r w (runs_inv_of r m0 n a o acts w Hrun)) as [_ _ Hch _ _].
    destruct pick.
    - apply GetConnection_ctx_Done in Hget as (e & _ & [=]).
    - apply GetConnection_recv in Hget as [(h' & _ & Ho & [= ->])|[_ [=]]].
      rewrite Hch in Ho. by destruct (pc w). }
  assert (env (EvDialOk h) ∈ acts) as Hin.
  { destruct (conn_origin r acts _ _ h Hrun Hc) as [[=]|?]; done. }
  split; [exact Hin|].
  assert (1 <= count_events is_DialOk acts)%nat.
  { clear -Hin. induction acts as [|act acts IH]; [by apply elem_of_nil in Hin|].
    apply elem_of_cons in Hin as [<-|Hin]; simpl; [lia|].
    specialize (IH Hin). destruct act as [|ev]; [done|]. lia. }
  pose proof (runs_at_most_one_dial_ok r m0 n a o acts w Hrun). lia.
Qed.

Lemma handle_comes_from_the_dial_witness :
  let o := conn_go.mkOptions (15 * Second) (mkRetryer (fun _ => Second)) [] in
  let acts := [call_Start None; env (EvDialOk 7%nat)] in
  exists w, runs rev_conn_go no_metrics "db" "h:1" o acts = Some w /\
    GetConnection (self w) None case_recv = Some (Some 7%nat, None) /\
    env (EvDialOk 7%nat) ∈ acts.
Proof.
  intros o acts.
  destruct (runs rev_conn_go no_metrics "db" "h:1" o acts) as [w|] eqn:E;
    [|vm_compute in E; discriminate E].
  assert (GetConnection (self w) None case_recv = Some (Some 7%nat, None)) as Hg.
  { vm_compute in E. injection E as <-. reflexivity. }
  exists w. split; [reflexivity|]. split; [exact Hg|].
  apply (handle_comes_from_the_dial rev_conn_go no_metrics "db" "h:1" o acts w None case_recv
           7%nat E Hg).
Defined.

Lemma conn_step_kept (r : revision) (w : World (Options_of r)) ev w' :
  step_of r w ev = Some w' ->
  conn w' = conn w \/ exists h, ev = EvDialOk h /\ conn w' = Some h.
Proof.
  intros Hs. destruct ev;
    try (left;
         destruct r; simpl in *;
         [unfold conn_go.step in Hs|unfold part_001.step in Hs
         |unfold part_000.step in Hs];
         destruct (pc w); try discriminate Hs;
         try (destruct (ctx_Done (appCtx w)); [|discriminate Hs]);
         try (destruct (ctx_Done (dialCtx w)); [|discriminate Hs]);
         injection Hs as <-; unfold conn_go.loop_return, return_; simpl;
         try (by destruct (fold_run_deferred (defers w) w) as (ch & cc & -> & _));
         done).
  right. exists c. split; [done|]. by apply dial_ok_enabled in Hs as (_ & _ & ?).
Qed.

Lemma conn_Start_kept (r : revision) (w : World (Options_of r)) ctx :
  conn (Start_of r ctx w) = conn w.
Proof.
  destruct r; simpl;
    [unfold conn_go.Start|unfold part_001.Start|unfold part_000.Start];
    repeat match goal with |- context [if ?b then _ else _] => destruct b end;
    done.
Qed.

(** A successful dial sets the handle, and nothing unsets it. *)
Lemma conn_set_by_dial (r : revision) acts : forall (w w' : World (Options_of r)),
  run (Start_of r) (step_of r) w acts = Some w' ->
  is_Some (conn w) \/ (1 <= count_events is_DialOk acts)%nat ->
  is_Some (conn w').
Proof.
  induction acts as [|act acts IH]; intros w w'; simpl.
  - intros [= <-] [?|?]; [done|lia].
  - destruct act as [ctx|ev]; simpl.
    + intros Hrun Hor. apply (IH _ _ Hrun). by rewrite conn_Start_kept.
    + destruct (step_of r w ev) as [w1|] eqn:E; [|done].
      intros Hrun Hor. apply (IH _ _ Hrun).
      destruct (conn_step_kept r w ev w1 E) as [Heq|(h & -> & Hc)].
      * rewrite Heq. destruct Hor as [?|Hc]; [by left|].
        destruct (is_DialOk ev) eqn:Ed; [|right; simpl in Hc; lia].
        destruct ev; try done. apply dial_ok_enabled in E as (_ & _ & Hc1).
        left. rewrite <- Heq, Hc1. eauto.
      * left. rewrite Hc. eauto.
Qed.

(** ** Closing the handle, starting the watcher *)

(** part_001 and part_000 call Close on the handle exactly once, when the
    loop returns after a successful dial, and never while the handle is
    being served; conn.go never calls Close on the handle it dialed. *)
Theorem Close_called_exactly_on_exit (r : revision) (m0 : Metrics) (n a : string)
    (o : Options_of r) (acts : list action) (w : World (Options_of r))
    (Hrun : runs r m0 n a o acts = Some w) :
  closed_conns w = match pc w, conn w with
                   | Exited, Some h => if defers_Close r then [h] else []
                   | _, _ => []
                   end.
Proof. by destruct (runs_full_inv r m0 n a o acts w Hrun) as (_ & _ & [Hc _] & _). Qed.

Lemma Close_called_exactly_on_exit_witness :
  let o := part_000.mkOptions (mkRetryer (fun _ => Second)) [] in
  let acts := [call_Start None; env (EvDialOk 7%nat); env (EvCancel Canceled); env EvDone] in
  exists w, runs rev_part_000 no_metrics "db" "h:1" o acts = Some w /\ closed_conns w = [7%nat].
Proof.
  intros o acts.
  destruct (runs rev_part_000 no_metrics "db" "h:1" o acts) as [w|] eqn:E;
    [|vm_compute in E; discriminate E].
  exists w. split; [reflexivity|].
  rewrite (Close_called_exactly_on_exit rev_part_000 no_metrics "db" "h:1" o acts w E).
  vm_compute in E. injection E as <-. reflexivity.
Defined.

(** part_000 starts one connectivity state watcher, for the handle of the
    successful dial and at that dial; conn.go and part_001 start none. *)
Theorem watcher_started_with_the_handle (r : revision) (m0 : Metrics) (n a : string)
    (o : Options_of r) (acts : list action) (w : World (Options_of r))
    (Hrun : runs r m0 n a o acts = Some w) :
  watchers w = match conn w with
               | Some h => if starts_watcher r then [h] else []
               | None => []
               end /\
  (is_Some (conn w) <-> count_events is_DialOk acts = 1%nat).
Proof.
  destruct (runs_full_inv r m0 n a o acts w Hrun) as (_ & _ & [_ Hwt] & _).
  split; [exact Hwt|]. split.
  - intros [h Hc].
    destruct (conn_origin r acts _ _ h Hrun Hc) as [[=]|Hin].
    assert (1 <= count_events is_DialOk acts)%nat.
    { clear -Hin. induction acts as [|act acts IH]; [by apply elem_of_nil in Hin|].
      apply elem_of_cons in Hin as [<-|Hin]; simpl; [lia|].
      specialize (IH Hin). destruct act as [|ev]; [done|]. lia. }
    pose proof (runs_at_most_one_dial_ok r m0 n a o acts w Hrun). lia.
  - intros Hone. eapply (conn_set_by_dial r acts); [exact Hrun|lia].
Qed.

Lemma watcher_started_with_the_handle_witness :
  let o := part_000.mkOptions (mkRetryer (fun _ => Second)) [] in
  let acts := [call_Start None; env (EvDialOk 7%nat); env EvSend] in
  exists w, runs rev_part_000 no_metrics "db" "h:1" o acts = Some w /\ watchers w = [7%nat].
Proof.
  intros o acts.
  destruct (runs rev_part_000 no_metrics "db" "h:1" o acts) as [w|] eqn:E;
    [|vm_compute in E; discriminate E].
  exists w. split; [reflexivity|].
  destruct (watcher_started_with_the_handle rev_part_000 no_metrics "db" "h:1" o acts w E)
    as [-> _].
  vm_compute in E. injection E as <-. reflexivity.
Defined.

(** ** The metrics along a run *)

Lemma gauge_inv_step (r : revision) g0 (w : World (Options_of r)) ev w' :
  gauge_inv r g0 w -> step_of r w ev = Some w' -> gauge_inv r g0 w'.
Proof.
  intros [Hw Hg] Hs. split; [by eapply full_inv_step|].
  unfold is_connected_at in *.
  destruct r; simpl in *;
    [unfold conn_go.step in Hs|unfold part_001.step in Hs|unfold part_000.step in Hs];
    full_inv_cases w; destruct ev; simpl in *; try discriminate Hs;
    repeat match type of Hs with
           | context [bool_decide ?P] => destruct (bool_decide_reflect P)
           end; simpl in *; try discriminate Hs;
    injection Hs as <-;
    unfold conn_go.loop_return, return_ in *; simpl in *;
    repeat match goal with
           | H : _ /\ _ |- _ => destruct H
           | H : exists _, _ |- _ => destruct H
           end; simplify_eq/=; done.
Qed.

Lemma gauge_inv_Start (r : revision) g0 (w : World (Options_of r)) ctx :
  gauge_inv r g0 w -> gauge_inv r g0 (Start_of r ctx w).
Proof.
  intros [Hw Hg]. split; [by apply full_inv_Start|].
  unfold is_connected_at in *.
  destruct r; simpl in *;
    [unfold conn_go.Start|unfold part_001.Start|unfold part_000.Start];
    full_inv_cases w;
    repeat match goal with
           | |- context [if ?b then _ else _] => destruct b eqn:?
           end; simpl in *;
    repeat match goal with
           | H : _ /\ _ |- _ => destruct H
           | H : exists _, _ |- _ => destruct H
           | H : inv _ |- _ => destruct H as [?Hio ?Hic ?Hich ?Hicn ?Hid]; simpl in *
           end; simplify_eq/=; done.
Qed.

(** The loop only ever writes 1 to the is-connected gauge. With [g0] the
    value the labels held when the Conn was built (the vector is shared by
    name and address): part_000 never touches the gauge; conn.go and
    part_001 create the child when the loop starts, at 0 unless it exists
    already, set it to 1 at the successful dial and never set it back. So
    the gauge still reads 1 after the loop has returned (and, in part_001,
    closed the handle), and it reads 1 throughout the life of a later Conn
    with the same labels, also while that Conn has not connected. *)
Theorem is_connected_never_reset (r : revision) (m0 : Metrics) (n a : string)
    (o : Options_of r) (acts : list action) (w : World (Options_of r))
    (Hrun : runs r m0 n a o acts = Some w) :
  metric_grpc_is_connected (metrics w)
  = (if starts_watcher r then metric_grpc_is_connected m0
     else match pc w, conn w with
          | NotStarted, _ => metric_grpc_is_connected m0
          | _, Some _ => Some 1
          | _, None => Some (default 0 (metric_grpc_is_connected m0))
          end) /\
  (metric_grpc_is_connected m0 = Some 1 ->
   metric_grpc_is_connected (metrics w) = Some 1).
Proof.
  assert (gauge_inv r (metric_grpc_is_connected m0) w) as [_ Hg].
  { revert Hrun.
    apply (run_preserves (Start_of r) (step_of r)
             (gauge_inv r (metric_grpc_is_connected m0))).
    - intros ctx w0. apply gauge_inv_Start.
    - intros w0 ev w1. apply gauge_inv_step.
    - split; [apply full_inv_init|]. by destruct r. }
  split; [exact Hg|].
  intros H1. rewrite Hg. unfold is_connected_at. rewrite H1.
  destruct (starts_watcher r); [done|]. by destruct (pc w), (conn w).
Qed.

Lemma is_connected_never_reset_witness :
  let o := part_001.mkOptions (mkRetryer (fun _ => Second)) [] in
  let acts := [call_Start None; env (EvDialOk 7%nat); env (EvCancel Canceled); env EvDone] in
  exists w, runs rev_part_001 no_metrics "db" "h:1" o acts = Some w /\
    pc w = Exited /\ closed_conns w = [7%nat] /\
    metric_grpc_is_connected (metrics w) = Some 1.
Proof.
  intros o acts.
  destruct (runs rev_part_001 no_metrics "db" "h:1" o acts) as [w|] eqn:E;
    [|vm_compute in E; discriminate E].
  exists w. split; [reflexivity|].
  destruct (is_connected_never_reset rev_part_001 no_metrics "db" "h:1" o acts w E)
    as [-> _].
  vm_compute in E. injection E as <-. split; [|split]; reflexivity.
Defined.

Example is_connected_stale_for_recreated_Conn :
  metric_grpc_is_connected <$> (metrics
    <$> runs rev_part_001 (mkMetrics (Some 1) (Some 1%nat) (Some 0%nat)) "db" "h:1"
          (part_001.mkOptions (mkRetryer (fun _ => Second)) [])
          [call_Start None; env (EvDialErr (library_error "refused"))])
  = Some (Some 1).
Proof. reflexivity. Qed.







(** ** K failed dials, then a successful one *)


(** ** More on the Pool *)

Section PoolMore.
Context {Options : Type}.
Implicit Types (c : Conn Options) (xs : list (Conn Options)).
Implicit Types (m : gmap string (ptr (Conn Options))).

Lemma registered_is_Some xs : forall m n,
  is_Some (registered m xs !! n) <-> is_Some (m !! n) \/ n ∈ GetName <$> xs.
Proof.
  induction xs as [|c xs IH]; intros m n; simpl.
  - split; [auto|]. intros [?|Hin]; [done|]. by apply elem_of_nil in Hin.
  - rewrite IH, lookup_insert_is_Some, elem_of_cons.
    destruct (decide (GetName c = n)) as [<-|Hne]; intuition congruence.
Qed.

Lemma registered_Some xs : forall m n v,
  registered m xs !! n = Some v ->
  m !! n = Some v \/ exists c, v = Some c /\ c ∈ xs /\ GetName c = n.
Proof.
  induction xs as [|c xs IH]; intros m n v; simpl; [auto|].
  intros Hl. apply IH in Hl as [Hl|(c' & -> & Hin & Hn)].
  - destruct (decide (GetName c = n)) as [<-|Hne].
    + rewrite lookup_insert_eq in Hl. injection Hl as <-.
      right. exists c. split; [done|]. split; [apply list_elem_of_here|done].
    + rewrite lookup_insert_ne in Hl by done. auto.
  - right. exists c'. split; [done|]. split; [by apply list_elem_of_further|done].
Qed.

Lemma NewPool_range_None (xs : list (ptr (Conn Options))) : forall p,
  NewPool_range p xs = None <-> nil ∈ xs.
Proof.
  induction xs as [|x xs IH]; intros p; simpl.
  - split; [done|]. intros Hin. by apply elem_of_nil in Hin.
  - destruct x as [c|].
    + rewrite IH. split; [by apply list_elem_of_further|].
      intros [?|?]%elem_of_cons; done.
    + split; [intros _; apply list_elem_of_here|done].
Qed.
End PoolMore.

Lemma NewPool_of_Conns {Options : Type} (xs : list (Conn Options)) :
  NewPool (Some <$> xs) = Some (Some (mkPool (registered ∅ xs)), None).
Proof. unfold NewPool. by rewrite NewPool_range_registered. Qed.

(** Get finds a name exactly when a Conn of the construction list carries
    it, and what it returns for a name is a Conn of that list carrying that
    name: the Pool never answers with a nil pointer marked found, nor with
    a Conn under another name. *)
Theorem Get_found_iff_registered {Options : Type} (xs : list (Conn Options))
    (p : Pool Options) (n : string)
    (Hp : NewPool (Some <$> xs) = Some (Some p, None)) :
  ((Get p n).2 = true <-> n ∈ GetName <$> xs) /\
  (forall x, Get p n = (x, true) ->
     exists c, x = Some c /\ c ∈ xs /\ GetName c = n) /\
  ((Get p n).2 = false -> (Get p n).1 = nil).
Proof.
  unfold NewPool in Hp. rewrite NewPool_range_registered in Hp.
  injection Hp as <-. unfold Get; simpl. split; [|split].
  - pose proof (registered_is_Some xs ∅ n) as Hi.
    rewrite lookup_empty in Hi.
    destruct (registered ∅ xs !! n) as [v|] eqn:El; simpl.
    + split; [|done]. intros _. destruct (proj1 Hi) as [[? [=]]|?]; eauto.
    + split; [done|]. intros Hin. destruct (proj2 Hi) as [? [=]]. auto.
  - intros x Hx. destruct (registered ∅ xs !! n) as [v|] eqn:El; [|done].
    injection Hx as ->. apply registered_Some in El as [El|?]; [|done].
    by rewrite lookup_empty in El.
  - by destruct (registered ∅ xs !! n).
Qed.

Lemma Get_found_iff_registered_witness :
  let a := new_Conn "db" "h1:1" tt in
  let b := new_Conn "mq" "h2:2" tt in
  exists p : Pool unit,
    NewPool [Some a; Some b] = Some (Some p, None) /\
    ((Get p "mq").2 = true <-> "mq" ∈ ["db"; "mq"]).
Proof.
  intros a b.
  exists (mkPool (registered ∅ [a; b])).
  split; [exact (NewPool_of_Conns [a; b])|].
  apply (Get_found_iff_registered [a; b] _ "mq" (NewPool_of_Conns [a; b])).
Defined.

Lemma unique_name_not_later {Options : Type} (l1 : list (Conn Options)) c l2 :
  NoDup (GetName <$> (l1 ++ c :: l2)%list) -> GetName c ∉ GetName <$> l2.
Proof.
  rewrite fmap_app, fmap_cons. intros Hnd.
  apply NoDup_app in Hnd as (_ & _ & Hnd). by apply NoDup_cons in Hnd as [? _].
Qed.

Lemma registered_unique {Options : Type} (xs : list (Conn Options)) c :
  NoDup (GetName <$> xs) -> c ∈ xs ->
  registered ∅ xs !! GetName c = Some (Some c).
Proof.
  intros Hnd Hin. apply list_elem_of_split in Hin as (l1 & l2 & ->).
  apply registered_last. by eapply unique_name_not_later.
Qed.

(** The comment of NewPool asks for unique names. When the names of the
    list are pairwise distinct, every Conn of the list is found under its
    own name, and the Pool does not depend on the order of the list. *)
Theorem Pool_with_unique_names {Options : Type} (xs ys : list (Conn Options))
    (Hnd : NoDup (GetName <$> xs)) (Hperm : xs ≡ₚ ys) :
  exists p,
    NewPool (Some <$> xs) = Some (Some p, None) /\
    NewPool (Some <$> ys) = Some (Some p, None) /\
    forall c, c ∈ xs -> Get p (GetName c) = (Some c, true).
Proof.
  exists (mkPool (registered ∅ xs)). split; [apply NewPool_of_Conns|]. split.
  - rewrite NewPool_of_Conns.
    assert (registered ∅ ys = registered ∅ xs) as ->; [|done].
    apply map_eq. intros n.
    assert (NoDup (GetName <$> ys)) as Hnd' by (by rewrite <- Hperm).
    destruct (decide (n ∈ GetName <$> xs)) as [Hin|Hout].
    + apply list_elem_of_fmap in Hin as (c & -> & Hin).
      etrans; [apply (registered_unique ys c Hnd'); by rewrite <- Hperm|].
      symmetry. by apply registered_unique.
    + etrans; [apply (registered_other ys); by rewrite <- Hperm|].
      symmetry. by apply registered_other.
  - intros c Hin. pose proof (registered_unique xs c Hnd Hin) as Hl.
    unfold Get, ptr in *. cbn [conns]. by rewrite Hl.
Qed.

Lemma Pool_with_unique_names_witness :
  let a := new_Conn "db" "h1:1" tt in
  let b := new_Conn "mq" "h2:2" tt in
  exists p : Pool unit,
    NewPool [Some a; Some b] = Some (Some p, None) /\
    NewPool [Some b; Some a] = Some (Some p, None) /\
    Get p "db" = (Some a, true).
Proof.
  intros a b.
  destruct (Pool_with_unique_names [a; b] [b; a]) as (p & H1 & H2 & H3).
  - simpl. apply NoDup_cons. split.
    + intros Hin. apply list_elem_of_singleton in Hin. discriminate Hin.
    + apply NoDup_singleton.
  - apply Permutation_swap.
  - exists p. split; [exact H1|]. split; [exact H2|].
    apply (H3 a). apply list_elem_of_here.
Defined.

(** NewPool panics exactly when its argument list holds a nil pointer
    (the call [x.GetName()] reads through it); for every other list it
    returns a Pool and a nil error. *)
Theorem NewPool_panics_iff_nil {Options : Type} (xs : list (ptr (Conn Options))) :
  (NewPool xs = None <-> nil ∈ xs) /\
  (nil ∉ xs -> exists p, NewPool xs = Some (Some p, None)).
Proof.
  unfold NewPool.
  pose proof (NewPool_range_None xs (mkPool ∅)) as Hn.
  destruct (NewPool_range (mkPool ∅) xs) as [p|]; split.
  - split; [done|]. intros Hin. by apply Hn in Hin.
  - eauto.
  - split; [intros _; by apply Hn|done].
  - intros Hout. destruct Hout. by apply Hn.
Qed.

Lemma NewPool_panics_iff_nil_witness :
  exists p : Pool unit,
    NewPool [Some (new_Conn "db" "h1:1" tt)] = Some (Some p, None).
Proof.
  apply (proj2 (NewPool_panics_iff_nil [Some (new_Conn "db" "h1:1" tt)])).
  intros Hin. apply list_elem_of_singleton in Hin. discriminate Hin.
Defined.

(** ** More on the watcher *)

Section WatcherMore.
Import part_000.




End WatcherMore.

Example watcher_gauge_after_transitions :
  let k := part_000.watchConnectionState Ready
             [part_000.wait_true TransientFailure; part_000.wait_true Connecting] in
  (part_000.state k, part_000.metric_conn_state k, part_000.Set_calls k)
  = (Connecting, 1, [1; 3; 2]).
Proof. reflexivity. Qed.


(** ** Start of conn.go *)

(** In conn.go, where Start runs the loop itself, a caller is inside Start
    exactly while the loop runs: Start has returned to every caller once the
    loop has returned, and from then on the Once is done and Start changes
    nothing. *)
Theorem conn_go_Start_returns_with_loop (m0 : Metrics) (n a : string) (o : conn_go.Options)
    (acts : list action) (w : World conn_go.Options)
    (Hrun : runs rev_conn_go m0 n a o acts = Some w) :
  (in_Start w = 0%nat <-> pc w = NotStarted \/ pc w = Exited) /\
  (pc w = Exited ->
     done_ (once (self w)) = true /\ forall ctx, conn_go.Start ctx w = w).
Proof.
  destruct (runs_inv_of rev_conn_go m0 n a o acts w Hrun) as (Hw & Hd & Hi).
  simpl in *. split.
  - destruct (pc w); split; intros H; auto; try lia;
      destruct H as [H|H]; discriminate H.
  - intros Hpc. rewrite Hpc in Hd. split; [exact Hd|].
    intros ctx. unfold conn_go.Start. by rewrite Hd.
Qed.

Lemma conn_go_Start_returns_with_loop_witness :
  let o := conn_go.mkOptions (15 * Second) (mkRetryer (fun _ => Second)) [] in
  let acts := [call_Start None; env (EvDialErr (library_error "refused"));
               env (EvCancel Canceled); env EvDone] in
  exists w, runs rev_conn_go no_metrics "db" "h:1" o acts = Some w /\
    pc w = Exited /\ in_Start w = 0%nat /\ done_ (once (self w)) = true.
Proof.
  intros o acts.
  destruct (runs rev_conn_go no_metrics "db" "h:1" o acts) as [w|] eqn:E;
    [|vm_compute in E; discriminate E].
  assert (pc w = Exited) as Hpc.
  { vm_compute in E. injection E as <-. reflexivity. }
  destruct (conn_go_Start_returns_with_loop no_metrics "db" "h:1" o acts w E) as [Hin Hdone].
  exists w. split; [reflexivity|]. split; [exact Hpc|]. split.
  - apply Hin. by right.
  - by apply Hdone.
Defined.
